(** * A sliding-window event counter: the model of [lib/counter.js]

    The class [Counter] keeps one unsigned 32-bit count per second in a
    circular [Uint32Array] of [maxDuration] buckets, together with the second
    of its last access.  Every public operation first runs [_getIndex], which
    zeroes the buckets that aged out since the last access.

    The development has three layers:
    - [Js]: the fragment of JavaScript the class relies on (numbers with
      [NaN], the infinities and the rounding of doubles past [2^53],
      [undefined], the relational and arithmetic operators the source uses,
      and [Uint32Array] with [fill], indexed reads and indexed writes);
    - [Counter]: the class itself, method by method, as state-passing
      functions over the record of its three fields, the clock reading
      [Date.now()] being an explicit argument;
    - the properties of the class. *)

From Stdlib Require Import ZArith QArith Qround List Lia Bool.
Import ListNotations.
Open Scope Z_scope.

(* ================================================================== *)
(** * The JavaScript fragment *)
(* ================================================================== *)

Module Js.

(** A JavaScript number.  A finite double is a rational: [Int z] is the
    double of integer value [z] and [Frac q] a double with a fractional part.
    The two zeros are not told apart (the class never divides by one).

    The class computes on integers: seconds, array positions and counts.
    On these the operators below are those of doubles, rounding included
    (see [round53]).  Fractions enter through the arguments only
    ([maxDuration], [duration]); comparing, truncating and taking the
    remainder of a fraction is exact on doubles and here, while [add] and
    [sub] of a fraction give the exact rational, which a double may round. *)
Inductive Number : Type :=
| NaN
| PInf
| NInf
| Int (z : Z)
| Frac (q : Q).

(** A JavaScript value, as far as the class sees one: an argument that was
    left out or an element read outside an array is [undefined]. *)
Inductive Value : Type :=
| Undefined
| Num (n : Number).

Inductive Error : Type :=
| RangeError.

(** The outcome of an expression that may throw. *)
Inductive Completion (A : Type) : Type :=
| Normal (a : A)
| Throw (e : Error).
Arguments Normal {A} a.
Arguments Throw {A} e.

Definition MAX_SAFE_INTEGER : Z := 2 ^ 53 - 1.

(** The rational value of a finite number. *)
Definition value (n : Number) : Q :=
  match n with
  | Int z => inject_Z z
  | Frac q => q
  | _ => 0%Q
  end.

(** The number of a rational value: integers are kept in [Int]. *)
Definition ofQ (q : Q) : Number :=
  let r := Qred q in
  if (Qden r =? 1)%positive then Int (Qnum r) else Frac r.

(** Rounding towards zero. *)
Definition Qtrunc (q : Q) : Z := Z.quot (Qnum q) (Zpos (Qden q)).

Definition ToNumber (v : Value) : Number :=
  match v with
  | Undefined => NaN
  | Num n => n
  end.

(** [ToIntegerOrInfinity]: [NaN] becomes 0, a finite number is truncated. *)
Definition ToIntegerOrInfinity (n : Number) : Number :=
  match n with
  | NaN => Int 0
  | PInf => PInf
  | NInf => NInf
  | Int z => Int z
  | Frac q => Int (Qtrunc q)
  end.

(** [ToUint32]: the integer part modulo [2^32]; 0 for [NaN] and the
    infinities. *)
Definition ToUint32 (n : Number) : Z :=
  match ToIntegerOrInfinity n with
  | Int z => z mod 2 ^ 32
  | _ => 0
  end.

Definition isNaN (v : Value) : bool :=
  match ToNumber v with
  | NaN => true
  | _ => false
  end.

(** The order of two numbers; [None] when one of them is [NaN], in which
    case every relational operator answers [false]. *)
Definition cmp (a b : Number) : option comparison :=
  match a, b with
  | NaN, _ | _, NaN => None
  | Int x, Int y => Some (x ?= y)
  | PInf, PInf | NInf, NInf => Some Eq
  | PInf, _ | _, NInf => Some Gt
  | NInf, _ | _, PInf => Some Lt
  | _, _ => Some (value a ?= value b)%Q
  end.

(** [a < b], [a > b], [a <= b], [a >= b] and [a === b] on numbers. *)
Definition lt (a b : Number) : bool :=
  match cmp a b with Some Lt => true | _ => false end.
Definition gt (a b : Number) : bool :=
  match cmp a b with Some Gt => true | _ => false end.
Definition le (a b : Number) : bool :=
  match cmp a b with Some Lt | Some Eq => true | _ => false end.
Definition ge (a b : Number) : bool :=
  match cmp a b with Some Gt | Some Eq => true | _ => false end.
Definition strict_eq (a b : Number) : bool :=
  match cmp a b with Some Eq => true | _ => false end.

(** [v === n] for a value [v] and a number [n]: [undefined] is no number. *)
Definition strict_eq_value (v : Value) (n : Number) : bool :=
  match v with
  | Undefined => false
  | Num a => strict_eq a n
  end.

(** The double nearest to an integer: itself up to [2^53]; beyond, the
    nearest multiple of the unit in the last place of its 53-bit
    significand, the even significand winning a tie.  (No sum the class
    forms comes near [2^1024], where a double overflows.) *)
Definition round53 (z : Z) : Z :=
  if Z.abs z <=? 2 ^ 53 then z
  else
    let ulp := 2 ^ (Z.log2 (Z.abs z) - 52) in
    let q := z / ulp in
    let r := z mod ulp in
    if 2 * r <? ulp then q * ulp
    else if ulp <? 2 * r then (q + 1) * ulp
    else if Z.even q then q * ulp
    else (q + 1) * ulp.

(** [a + b]: the sum of two integers is rounded to a double; on fractions
    the sum is the exact rational, where a double may round. *)
Definition add (a b : Number) : Number :=
  match a, b with
  | NaN, _ | _, NaN => NaN
  | Int x, Int y => Int (round53 (x + y))
  | PInf, NInf | NInf, PInf => NaN
  | PInf, _ | _, PInf => PInf
  | NInf, _ | _, NInf => NInf
  | _, _ => ofQ (value a + value b)
  end.

(** [a - b], likewise. *)
Definition sub (a b : Number) : Number :=
  match a, b with
  | NaN, _ | _, NaN => NaN
  | Int x, Int y => Int (round53 (x - y))
  | PInf, PInf | NInf, NInf => NaN
  | PInf, _ | _, NInf => PInf
  | NInf, _ | _, PInf => NInf
  | _, _ => ofQ (value a - value b)
  end.

(** [a % b]: the remainder of the division truncated towards zero; it has
    the sign of [a].  [NaN] when [a] is not finite or [b] is zero.  The
    remainder of two doubles is a double: nothing is rounded. *)
Definition rem (a b : Number) : Number :=
  match a, b with
  | NaN, _ | _, NaN => NaN
  | PInf, _ | NInf, _ => NaN
  | _, PInf | _, NInf => a
  | Int x, Int y => if y =? 0 then NaN else Int (Z.rem x y)
  | _, _ =>
      if Qeq_bool (value b) 0 then NaN
      else ofQ (value a - value b * inject_Z (Qtrunc (value a / value b)))
  end.

(** ** Typed arrays *)

(** A [Uint32Array]: its elements, each in [0, 2^32). *)
Definition Uint32Array : Type := list Z.

(** The integer a number is equal to, if it is one. *)
Definition integer_value (i : Number) : option Z :=
  match i with
  | Int z => Some z
  | Frac q => match ofQ q with Int z => Some z | _ => None end
  | _ => None
  end.

(** The element position a number denotes in an array of [len] elements,
    if any: an integer in [0, len). *)
Definition element_index (len : nat) (i : Number) : option nat :=
  match integer_value i with
  | Some z => if (0 <=? z) && (z <? Z.of_nat len) then Some (Z.to_nat z) else None
  | None => None
  end.

(** [a[i]]: [undefined] unless [i] is an element position. *)
Definition get (a : Uint32Array) (i : Number) : Value :=
  match element_index (length a) i with
  | Some k => Num (Int (nth k a 0))
  | None => Undefined
  end.

Fixpoint update (k : nat) (x : Z) (a : list Z) : list Z :=
  match a, k with
  | [], _ => []
  | _ :: t, O => x :: t
  | h :: t, S k' => h :: update k' x t
  end.

(** [a[i] = v]: the value is stored modulo [2^32]; the write is dropped
    unless [i] is an element position. *)
Definition set (a : Uint32Array) (i : Number) (v : Value) : Uint32Array :=
  match element_index (length a) i with
  | Some k => update k (ToUint32 (ToNumber v)) a
  | None => a
  end.

(** A relative position of [fill]: an absent argument is the default, a
    negative one counts from the end, and the result is clamped to
    [0, len]. *)
Definition relative (len : Z) (default : Z) (v : Value) : Z :=
  match v with
  | Undefined => default
  | Num n =>
      match ToIntegerOrInfinity n with
      | NInf => 0
      | PInf => len
      | Int z => if z <? 0 then Z.max (len + z) 0 else Z.min z len
      | _ => 0
      end
  end.

(** [a.fill(v, start, end)]: every element from [start] up to, not
    including, [end] becomes [v]. *)
Definition fill (a : Uint32Array) (v : Number) (start end_ : Value) : Uint32Array :=
  let len := Z.of_nat (length a) in
  let k := relative len 0 start in
  let final := relative len len end_ in
  if k <? final
  then firstn (Z.to_nat k) a
         ++ repeat (ToUint32 v) (Z.to_nat (final - k))
         ++ skipn (Z.to_nat final) a
  else a.

(** [new Uint32Array(length)]: a [RangeError] unless the integer part of
    the length lies in [0, 2^53 - 1] and the host can allocate that many
    elements; [host_max] is the longest typed array of the host.  The
    elements start at 0. *)
Definition new_Uint32Array (host_max : Z) (len : Value) : Completion Uint32Array :=
  match ToIntegerOrInfinity (match len with Undefined => Int 0 | Num n => n end) with
  | Int z =>
      if (0 <=? z) && (z <=? MAX_SAFE_INTEGER) && (z <=? host_max)
      then Normal (repeat 0 (Z.to_nat z))
      else Throw RangeError
  | _ => Throw RangeError
  end.

End Js.

(* ================================================================== *)
(** * The class [Counter] *)
(* ================================================================== *)

Module Counter.
Import Js.

(** An instance: the three fields the constructor seals.  [lastUpdatedAt]
    is always a value of [now], an integer. *)
Record t : Type := mk {
  maxDuration : Number;
  data : Uint32Array;
  lastUpdatedAt : Z
}.

(** [static now ()]: [Math.floor(Date.now() / 1000)], the current second;
    [Date_now] is the reading of the millisecond clock. *)
Definition now (Date_now : Z) : Z := Date_now / 1000.

(** [constructor (maxDuration = 60)].  The array is allocated first; if
    that throws, no instance exists. *)
Definition constructor (host_max : Z) (arg : Value) (Date_now : Z) : Completion t :=
  let maxDuration := match arg with Undefined => Int 60 | Num n => n end in
  match new_Uint32Array host_max (Num maxDuration) with
  | Throw e => Throw e
  | Normal a =>
      Normal {| maxDuration := maxDuration;
                data := fill a (Int 0) Undefined Undefined;
                lastUpdatedAt := now Date_now |}
  end.

(** [static create (maxDuration)]. *)
Definition create (host_max : Z) (arg : Value) (Date_now : Z) : Completion t :=
  constructor host_max arg Date_now.

(** [_getIndex ()]: zeroes the buckets that aged out since the last access,
    records the access and returns the bucket of the current second. *)
Definition _getIndex (Date_now : Z) (this : t) : Number * t :=
  let maxDuration := this.(maxDuration) in
  let data := this.(data) in
  let lastUpdatedAt := this.(lastUpdatedAt) in
  let now := now Date_now in
  let index := rem (Int now) maxDuration in
  let elapsed := sub (Int now) (Int lastUpdatedAt) in
  let data :=
    if strict_eq elapsed (Int 1) then
      set data index (Num (Int 0))
    else if ge elapsed maxDuration then
      fill data (Int 0) Undefined Undefined
    else if gt elapsed (Int 1) then
      let start := rem (add (Int lastUpdatedAt) (Int 1)) maxDuration in
      let end_ := rem (add (Int now) (Int 1)) maxDuration in
      if lt start end_ then
        fill data (Int 0) (Num start) (Num end_)
      else
        fill (fill data (Int 0) (Num start) (Num maxDuration))
             (Int 0) (Num (Int 0)) (Num end_)
    else data in
  (index, {| maxDuration := maxDuration; data := data; lastUpdatedAt := now |}).

(** [increment ()]: [true] when the bucket of the current second was
    incremented, [false] when that would overflow it. *)
Definition increment (Date_now : Z) (this : t) : bool * t :=
  let (index, this) := _getIndex Date_now this in
  let lastCount := get this.(data) index in
  let data := set this.(data) index (Num (add (ToNumber lastCount) (Int 1))) in
  if strict_eq_value (get data index) (Int 0) then
    (false, {| maxDuration := this.(maxDuration);
               data := set data index lastCount;
               lastUpdatedAt := this.(lastUpdatedAt) |})
  else
    (true, {| maxDuration := this.(maxDuration);
              data := data;
              lastUpdatedAt := this.(lastUpdatedAt) |}).

(** The ternary chain that normalises the argument of [getCount]. *)
Definition clamp (maxDuration : Number) (duration : Value) : Number :=
  if isNaN duration then maxDuration
  else if gt (ToNumber duration) maxDuration then maxDuration
  else if lt (ToNumber duration) (Int 1) then Int 1
  else ToNumber duration.

(** The loop [for (let i = duration - 1; i >= 0; i--)] of [getCount], from
    the current [i] and [count].  [None]: the fuel ran out before the guard
    failed. *)
Fixpoint count_loop (fuel : nat) (data : Uint32Array) (maxDuration index i count : Number)
  : option Number :=
  if ge i (Int 0) then
    match fuel with
    | O => None
    | S fuel' =>
        let idx :=
          if lt (sub index i) (Int 0)
          then add (sub index i) maxDuration
          else sub index i in
        count_loop fuel' data maxDuration index
                   (sub i (Int 1)) (add count (ToNumber (get data idx)))
    end
  else Some count.

(** The fuel of the loop from [i]: [floor i + 1] for a finite [i >= 0],
    the number of times the body runs when every [i--] takes one off; none
    when the guard fails at once.  From [Infinity] the loop never ends
    ([i--] leaves it unchanged), and no fuel is given. *)
Definition iterations (i : Number) : nat :=
  match i with
  | Int z => Z.to_nat (z + 1)
  | Frac q => Z.to_nat (Qfloor q + 1)
  | _ => O
  end.

(** [getCount (duration)]: the count over the last [duration] seconds, or
    -1 past [Number.MAX_SAFE_INTEGER].  [None]: the call does not return. *)
Definition getCount (Date_now : Z) (duration : Value) (this : t) : option (Number * t) :=
  let (index, this) := _getIndex Date_now this in
  let data := this.(data) in
  let maxDuration := this.(maxDuration) in
  let duration := clamp maxDuration duration in
  match count_loop (iterations (sub duration (Int 1))) data maxDuration index
                   (sub duration (Int 1)) (Int 0) with
  | Some count =>
      if le count (Int MAX_SAFE_INTEGER) then Some (count, this)
      else Some (Int (-1), this)
  | None => None
  end.

End Counter.

(* ================================================================== *)
(** * The vocabulary of the properties *)
(* ================================================================== *)

Import Js.
Import Counter.

(** The largest count a bucket can hold. *)
Definition UINT32_MAX : Z := 4294967295.

(** The values a [Uint32Array] element can take. *)
Definition uint32 (v : Z) : Prop := 0 <= v <= UINT32_MAX.

(** The bucket at position [i]. *)
Definition bucket (a : Uint32Array) (i : Z) : Z := nth (Z.to_nat i) a 0.

(** A second [now] can return at or after the epoch: a time value is at
    most 8.64e15 milliseconds. *)
Definition epoch_second (t : Z) : Prop := 0 <= t <= 8640000000000.

(** An instance as the data model describes one: [maxDuration] is the
    positive integer [m], there are [m] buckets of 32 bits (a typed array
    has at most [2^53 - 1] elements), and [lastUpdatedAt] is a second at or
    after the epoch. *)
Record wf (m : Z) (c : Counter.t) : Prop := {
  wf_maxDuration : c.(maxDuration) = Int m;
  wf_positive : 0 < m <= MAX_SAFE_INTEGER;
  wf_length : Z.of_nat (length c.(data)) = m;
  wf_uint32 : Forall uint32 c.(data);
  wf_epoch : epoch_second c.(lastUpdatedAt)
}.

(** The half-open range [[s, e)] of the circular index space of [m]
    positions: the positions reached from [s] in fewer steps than [e]. *)
Definition circular_range (m s e i : Z) : bool :=
  (i - s) mod m <? (e - s) mod m.

(** The same range as segments of the buffer: [[s, e)] when it does not
    wrap, [[s, m)] then [[0, e)] when it does. *)
Definition segments (m s e i : Z) : bool :=
  if s <? e then (s <=? i) && (i <? e)
  else ((s <=? i) && (i <? m)) || ((0 <=? i) && (i <? e)).

(** The [d] most recent positions ending at [index]:
    [index, index - 1, ..., index - d + 1], each wrapped modulo [m]. *)
Definition window (m index d : Z) : list Z :=
  map (fun j => (index - Z.of_nat j) mod m) (seq 0 (Z.to_nat d)).

(** The sum of the buckets of a window. *)
Definition window_sum (a : Uint32Array) (m index d : Z) : Z :=
  fold_right Z.add 0 (map (bucket a) (window m index d)).

(** The buckets [_getIndex] zeroes when the last access was at second
    [last] and the current second is [t], by the time elapsed. *)
Definition policy (m last t i : Z) : bool :=
  let elapsed := t - last in
  if elapsed =? 1 then i =? t mod m
  else if m <=? elapsed then true
  else if 1 <? elapsed then segments m ((last + 1) mod m) ((t + 1) mod m) i
  else false.

(** The numbers from which [i--] counts down: the finite numbers up to
    [2^53].  (Further up a double can be its own predecessor.) *)
Definition counts_down (i : Number) : Prop :=
  match i with
  | Int z => z <= 2 ^ 53
  | Frac q => Qfloor q <= 2 ^ 53
  | _ => False
  end.

(** The duration [getCount] uses for an integer argument. *)
Definition clamped (m d : Z) : Z := Z.max 1 (Z.min d m).

(** An instance of four buckets, last accessed at second 10. *)
Definition four : Counter.t :=
  {| maxDuration := Int 4; data := [1; 2; 3; 4]; lastUpdatedAt := 10 |}.

(** An instance whose buckets are all at the 32-bit maximum. *)
Definition saturated : Counter.t :=
  {| maxDuration := Int 4;
     data := [4294967295; 4294967295; 4294967295; 4294967295];
     lastUpdatedAt := 10 |}.

(** An instance whose buckets all hold 1. *)
Definition ones : Counter.t :=
  {| maxDuration := Int 4; data := [1; 1; 1; 1]; lastUpdatedAt := 10 |}.

(** [increment] at each of a list of clock readings, in turn. *)
Definition increments (readings : list Z) (c : Counter.t) : Counter.t :=
  fold_left (fun c Date_now => snd (increment Date_now c)) readings c.

(** The instance the tests start from: [create(4)] at second 10. *)
Definition fresh : Counter.t :=
  {| maxDuration := Int 4; data := [0; 0; 0; 0]; lastUpdatedAt := 10 |}.

(** The public operations on an instance. *)
Inductive Op : Type :=
| Increment
| GetCount (duration : Value).

(** One operation at the clock reading [Date_now]; [None] if it does not
    return. *)
Definition step (Date_now : Z) (op : Op) (c : Counter.t) : option Counter.t :=
  match op with
  | Increment => Some (snd (increment Date_now c))
  | GetCount duration =>
      match getCount Date_now duration c with
      | Some (_, c') => Some c'
      | None => None
      end
  end.

(** A run: the values of [lastUpdatedAt] after each operation of a list of
    operations, each with its clock reading.  An operation that does not
    return ends the run. *)
Fixpoint run (ops : list (Z * Op)) (c : Counter.t) : list Z :=
  match ops with
  | [] => []
  | (Date_now, op) :: rest =>
      match step Date_now op c with
      | Some c' => c'.(lastUpdatedAt) :: run rest c'
      | None => []
      end
  end.

(** A session: an instance is created, then operated on.  If construction
    throws there is no instance, and nothing to observe. *)
Definition session (host_max : Z) (arg : Value) (Date_now : Z) (ops : list (Z * Op))
  : list Z :=
  match create host_max arg Date_now with
  | Normal c => c.(lastUpdatedAt) :: run ops c
  | Throw _ => []
  end.

(** The clock readings of a run never go back by a second, starting from
    the second [t]. *)
Fixpoint clock_monotone (t : Z) (ops : list (Z * Op)) : Prop :=
  match ops with
  | [] => True
  | (Date_now, _) :: rest => t <= now Date_now /\ clock_monotone (now Date_now) rest
  end.

(** A list of seconds that never decreases, starting from [t]. *)
Fixpoint nondecreasing (t : Z) (l : list Z) : Prop :=
  match l with
  | [] => True
  | x :: rest => t <= x /\ nondecreasing x rest
  end.

(** ** The events a counter stands for *)

(** A bucket has aged out between the accesses at seconds [last] and [t]
    when a second of its own lies after [last], up to [t]. *)
Definition aged_out (m last t i : Z) : Prop :=
  exists u, last < u <= t /\ u mod m = i.

(** A log: the number of events recorded in each second. *)
Definition Log : Type := Z -> Z.

Definition empty_log : Log := fun _ => 0.

(** One more event in second [t]. *)
Definition record (log : Log) (t : Z) : Log :=
  fun u => if u =? t then log u + 1 else log u.

(** The events of the [d] seconds that end at second [t]. *)
Definition events (log : Log) (t d : Z) : Z :=
  fold_right Z.add 0 (map (fun j => log (t - Z.of_nat j)) (seq 0 (Z.to_nat d))).

(** An instance tracks a log when each of the last [m] seconds up to
    [lastUpdatedAt] has its events in its bucket, and no later second has
    any. *)
Definition tracks (m : Z) (c : Counter.t) (log : Log) : Prop :=
  wf m c /\
  (forall u, c.(lastUpdatedAt) - m < u <= c.(lastUpdatedAt) ->
     bucket c.(data) (u mod m) = log u) /\
  (forall u, c.(lastUpdatedAt) < u -> log u = 0).

(** What a call answers: the boolean of [increment], the number of
    [getCount]. *)
Inductive Answer : Type :=
| Incremented (ok : bool)
| Counted (n : Number).

(** The answers of a list of operations, each with its clock reading, on
    an instance.  An operation that does not return ends the list. *)
Fixpoint answers (ops : list (Z * Op)) (c : Counter.t) : list Answer :=
  match ops with
  | [] => []
  | (Date_now, Increment) :: rest =>
      Incremented (fst (increment Date_now c))
        :: answers rest (snd (increment Date_now c))
  | (Date_now, GetCount duration) :: rest =>
      match getCount Date_now duration c with
      | Some (n, c') => Counted n :: answers rest c'
      | None => []
      end
  end.

(** The number of seconds a duration stands for on an instance of [m]
    buckets, when it normalises to an integer. *)
Definition seconds (m : Z) (duration : Value) : option Z :=
  match clamp (Int m) duration with
  | Int d => Some d
  | _ => None
  end.

(** The durations of a list of operations all normalise to integers. *)
Fixpoint whole_seconds (m : Z) (ops : list (Z * Op)) : Prop :=
  match ops with
  | [] => True
  | (_, Increment) :: rest => whole_seconds m rest
  | (_, GetCount duration) :: rest =>
      seconds m duration <> None /\ whole_seconds m rest
  end.

(** The answers a log of events gives: an event is recorded unless its
    second already holds [2^32 - 1] of them; a count is that of the events
    of the last seconds, or -1 past the safe integers. *)
Fixpoint expected (m : Z) (ops : list (Z * Op)) (log : Log) : list Answer :=
  match ops with
  | [] => []
  | (Date_now, Increment) :: rest =>
      if log (now Date_now) =? UINT32_MAX
      then Incremented false :: expected m rest log
      else Incremented true :: expected m rest (record log (now Date_now))
  | (Date_now, GetCount duration) :: rest =>
      match seconds m duration with
      | Some d =>
          let total := events log (now Date_now) d in
          Counted (if total <=? MAX_SAFE_INTEGER then Int total else Int (-1))
            :: expected m rest log
      | None => []
      end
  end.

(** An instance with no bucket at all, as [create(0)] returns. *)
Definition empty : Counter.t :=
  {| maxDuration := Int 0; data := []; lastUpdatedAt := 10 |}.

(** An instance as [create(NaN)] returns. *)
Definition nameless : Counter.t :=
  {| maxDuration := NaN; data := []; lastUpdatedAt := 10 |}.

(* ================================================================== *)
(** * Typed arrays *)
(* ================================================================== *)

#[global] Arguments Js.round53 : simpl never.
#[global] Arguments Js.rem : simpl never.
#[global] Arguments Js.get : simpl never.
#[global] Arguments Js.set : simpl never.
#[global] Arguments Js.fill : simpl never.
#[global] Arguments Counter.now : simpl never.
#[global] Arguments Counter._getIndex : simpl never.

Lemma length_update k x a : length (update k x a) = length a.
Proof.
  revert k; induction a as [|h t IH]; intros [|k]; simpl; auto.
Qed.

Lemma nth_update_eq k x a : (k < length a)%nat -> nth k (update k x a) 0 = x.
Proof.
  revert k; induction a as [|h t IH]; intros [|k] H; simpl in *; try lia; auto.
  apply IH; lia.
Qed.

Lemma nth_update_ne k j x a : j <> k -> nth j (update k x a) 0 = nth j a 0.
Proof.
  revert k j; induction a as [|h t IH]; intros [|k] [|j] H; simpl; auto; try lia.
Qed.

Lemma Forall_update k x a : uint32 x -> Forall uint32 a -> Forall uint32 (update k x a).
Proof.
  intros Hx; revert k; induction a as [|h t IH]; intros [|k] H; simpl; auto;
    inversion H; subst; constructor; auto.
Qed.

Lemma uint32_mod z : uint32 (z mod 2 ^ 32).
Proof.
  unfold uint32, UINT32_MAX.
  pose proof (Z.mod_pos_bound z (2 ^ 32) ltac:(lia)). lia.
Qed.

Lemma ToUint32_uint32 n : uint32 (ToUint32 n).
Proof.
  unfold ToUint32. destruct (ToIntegerOrInfinity n); try apply uint32_mod;
    unfold uint32, UINT32_MAX; lia.
Qed.

Lemma ToUint32_Int z : ToUint32 (Int z) = z mod 2 ^ 32.
Proof. reflexivity. Qed.

Lemma if_Int (b : bool) x y : (if b then Int x else Int y) = Int (if b then x else y).
Proof. now destruct b. Qed.

Lemma element_index_Int len i :
  0 <= i < Z.of_nat len -> element_index len (Int i) = Some (Z.to_nat i).
Proof.
  intros H. unfold element_index; simpl.
  destruct (Z.leb_spec 0 i); destruct (Z.ltb_spec i (Z.of_nat len)); simpl; auto; lia.
Qed.

Lemma get_Int a i :
  0 <= i < Z.of_nat (length a) -> get a (Int i) = Num (Int (bucket a i)).
Proof. intros H. unfold get. now rewrite element_index_Int. Qed.

Lemma set_Int a i v :
  0 <= i < Z.of_nat (length a) ->
  set a (Int i) v = update (Z.to_nat i) (ToUint32 (ToNumber v)) a.
Proof. intros H. unfold set. now rewrite element_index_Int. Qed.

Lemma length_set a i v : length (set a i v) = length a.
Proof. unfold set. destruct (element_index _ _); auto using length_update. Qed.

Lemma Forall_set a i v : Forall uint32 a -> Forall uint32 (set a i v).
Proof.
  unfold set. destruct (element_index _ _); auto using Forall_update, ToUint32_uint32.
Qed.

Lemma relative_range len default v :
  0 <= default <= len -> 0 <= relative len default v <= len.
Proof.
  intros H. unfold relative. destruct v as [|n]; auto.
  destruct (ToIntegerOrInfinity n); try lia.
  destruct (Z.ltb_spec z 0); lia.
Qed.

Lemma length_fill a v s e : length (fill a v s e) = length a.
Proof.
  unfold fill.
  pose proof (relative_range (Z.of_nat (length a)) 0 s ltac:(lia)) as Hs.
  pose proof (relative_range (Z.of_nat (length a)) (Z.of_nat (length a)) e ltac:(lia)) as He.
  destruct (Z.ltb_spec (relative (Z.of_nat (length a)) 0 s)
                       (relative (Z.of_nat (length a)) (Z.of_nat (length a)) e)); auto.
  rewrite !length_app, repeat_length, length_firstn, length_skipn. lia.
Qed.

Lemma Forall_uint32_firstn n a : Forall uint32 a -> Forall uint32 (firstn n a).
Proof.
  intros H; revert n; induction H; intros [|n]; simpl; constructor; auto.
Qed.

Lemma Forall_uint32_skipn n a : Forall uint32 a -> Forall uint32 (skipn n a).
Proof.
  intros H; revert n; induction H; intros [|n]; simpl; auto.
Qed.

Lemma Forall_fill a v s e : Forall uint32 a -> Forall uint32 (fill a v s e).
Proof.
  intros H. unfold fill. destruct (_ <? _); auto.
  rewrite !Forall_app. repeat split.
  - now apply Forall_uint32_firstn.
  - apply Forall_forall. intros x Hx. apply repeat_spec in Hx. subst.
    apply ToUint32_uint32.
  - now apply Forall_uint32_skipn.
Qed.

(** What [fill] leaves in each position. *)
Lemma bucket_fill a v s e i :
  0 <= i < Z.of_nat (length a) ->
  bucket (fill a v s e) i =
    if (relative (Z.of_nat (length a)) 0 s <=? i)
       && (i <? relative (Z.of_nat (length a)) (Z.of_nat (length a)) e)
    then ToUint32 v else bucket a i.
Proof.
  intros Hi. unfold fill, bucket.
  pose proof (relative_range (Z.of_nat (length a)) 0 s ltac:(lia)) as Hs.
  pose proof (relative_range (Z.of_nat (length a)) (Z.of_nat (length a)) e ltac:(lia)) as He.
  set (k := relative _ 0 s) in *. set (f := relative _ _ e) in *.
  destruct (Z.ltb_spec k f) as [Hkf|Hkf].
  - destruct (Z.leb_spec k i) as [Hki|Hki]; simpl.
    + rewrite app_nth2 by (rewrite length_firstn; lia).
      rewrite length_firstn.
      replace (Init.Nat.min (Z.to_nat k) (length a)) with (Z.to_nat k) by lia.
      destruct (Z.ltb_spec i f) as [Hif|Hif].
      * rewrite app_nth1 by (rewrite repeat_length; lia).
        apply nth_repeat_lt. lia.
      * rewrite app_nth2 by (rewrite repeat_length; lia).
        rewrite repeat_length, nth_skipn. f_equal. lia.
    + rewrite app_nth1 by (rewrite length_firstn; lia).
      rewrite nth_firstn.
      destruct (Nat.ltb_spec (Z.to_nat i) (Z.to_nat k)); auto; lia.
  - destruct (Z.leb_spec k i); destruct (Z.ltb_spec i f); simpl; auto; lia.
Qed.

(* ================================================================== *)
(** * Operators on integers *)
(* ================================================================== *)

Lemma strict_eq_Int a b : strict_eq (Int a) (Int b) = (a =? b).
Proof.
  unfold strict_eq; simpl. destruct (Z.compare_spec a b), (Z.eqb_spec a b); auto; lia.
Qed.

Lemma lt_Int a b : lt (Int a) (Int b) = (a <? b).
Proof.
  unfold lt; simpl. destruct (Z.compare_spec a b), (Z.ltb_spec a b); auto; lia.
Qed.

Lemma gt_Int a b : gt (Int a) (Int b) = (b <? a).
Proof.
  unfold gt; simpl. destruct (Z.compare_spec a b), (Z.ltb_spec b a); auto; lia.
Qed.

Lemma le_Int a b : le (Int a) (Int b) = (a <=? b).
Proof.
  unfold le; simpl. destruct (Z.compare_spec a b), (Z.leb_spec a b); auto; lia.
Qed.

Lemma ge_Int a b : ge (Int a) (Int b) = (b <=? a).
Proof.
  unfold ge; simpl. destruct (Z.compare_spec a b), (Z.leb_spec b a); auto; lia.
Qed.

Lemma round53_exact z : Z.abs z <= 2 ^ 53 -> round53 z = z.
Proof. intros H. unfold round53. destruct (Z.leb_spec (Z.abs z) (2 ^ 53)); [reflexivity|lia]. Qed.

Lemma add_Int x y : Z.abs (x + y) <= 2 ^ 53 -> add (Int x) (Int y) = Int (x + y).
Proof. intros H. cbn [add]. now rewrite round53_exact. Qed.

Lemma sub_Int x y : Z.abs (x - y) <= 2 ^ 53 -> sub (Int x) (Int y) = Int (x - y).
Proof. intros H. cbn [sub]. now rewrite round53_exact. Qed.

(** Rounding keeps a sum that passed [2^53] at or above it. *)
Lemma round53_large z : 2 ^ 53 <= z -> 2 ^ 53 <= round53 z.
Proof.
  intros H. unfold round53.
  destruct (Z.leb_spec (Z.abs z) (2 ^ 53)) as [_|Hbig]; [assumption|].
  rewrite Z.abs_eq in * by lia.
  assert (Hlog : 53 <= Z.log2 z) by (apply Z.log2_le_pow2; lia).
  pose proof (Z.log2_spec z ltac:(lia)) as [Hlow _].
  set (k := Z.log2 z) in *. set (ulp := 2 ^ (k - 52)).
  assert (Hulp : 0 < ulp) by (apply Z.pow_pos_nonneg; lia).
  assert (Hk : 2 ^ k = 2 ^ 52 * ulp).
  { unfold ulp. rewrite <- Z.pow_add_r by lia. f_equal. lia. }
  assert (Hq : 2 ^ 52 <= z / ulp) by (apply Z.div_le_lower_bound; lia).
  assert (Hpow : 2 ^ 53 <= 2 ^ k) by (apply Z.pow_le_mono_r; lia).
  assert (Hfloor : 2 ^ 53 <= z / ulp * ulp) by nia.
  repeat match goal with |- context [if ?b then _ else _] => destruct b end; nia.
Qed.

Lemma rem_Int a m : 0 <= a -> 0 < m -> rem (Int a) (Int m) = Int (a mod m).
Proof.
  intros Ha Hm. unfold rem. destruct (Z.eqb_spec m 0); [lia|].
  now rewrite Z.rem_mod_nonneg by lia.
Qed.

(* ================================================================== *)
(** * The buffer advance *)
(* ================================================================== *)

(** [_getIndex] records the current second, whatever the instance. *)
Lemma getIndex_lastUpdatedAt Date_now c :
  (snd (_getIndex Date_now c)).(lastUpdatedAt) = now Date_now.
Proof. reflexivity. Qed.

Lemma getIndex_maxDuration Date_now c :
  (snd (_getIndex Date_now c)).(maxDuration) = c.(maxDuration).
Proof. reflexivity. Qed.

Lemma getIndex_length Date_now c :
  length (snd (_getIndex Date_now c)).(data) = length c.(data).
Proof.
  unfold _getIndex; simpl.
  repeat match goal with
         | |- context [if ?b then _ else _] => destruct b
         end; rewrite ?length_fill, ?length_set; reflexivity.
Qed.

Lemma getIndex_uint32 Date_now c :
  Forall uint32 c.(data) -> Forall uint32 (snd (_getIndex Date_now c)).(data).
Proof.
  intros H. unfold _getIndex; simpl.
  repeat match goal with
         | |- context [if ?b then _ else _] => destruct b
         end; auto using Forall_fill, Forall_set.
Qed.

Lemma getIndex_index m Date_now c :
  wf m c -> epoch_second (now Date_now) ->
  fst (_getIndex Date_now c) = Int (now Date_now mod m).
Proof.
  intros [Hm Hpos _ _ _] Ht. unfold _getIndex; simpl.
  rewrite Hm. apply rem_Int; [apply Ht|apply Hpos].
Qed.

Lemma getIndex_wf m Date_now c :
  wf m c -> epoch_second (now Date_now) -> wf m (snd (_getIndex Date_now c)).
Proof.
  intros H Ht. pose proof H as [Hm Hpos Hlen Hu Hl]. constructor; auto.
  - now rewrite getIndex_length.
  - now apply getIndex_uint32.
Qed.

(** The data-model conditions of a concrete instance. *)
Ltac solve_wf :=
  constructor; simpl;
  unfold epoch_second, MAX_SAFE_INTEGER, uint32, UINT32_MAX;
  [reflexivity | lia | reflexivity
  | repeat apply Forall_cons; try apply Forall_nil; lia | lia].

(** Sums and differences that stay within [2^53] are not rounded. *)
Ltac exact_arith :=
  rewrite ?add_Int, ?sub_Int, ?round53_exact
    by (unfold epoch_second, MAX_SAFE_INTEGER in *; lia).

(** The buckets after [_getIndex], position by position. *)
Lemma getIndex_bucket m Date_now c i :
  wf m c -> epoch_second (now Date_now) -> 0 <= i < m ->
  bucket (snd (_getIndex Date_now c)).(data) i =
    if policy m c.(lastUpdatedAt) (now Date_now) i then 0 else bucket c.(data) i.
Proof.
  intros [Hm Hpos Hlen Hu Hl] Ht Hi. unfold _getIndex, policy; simpl.
  rewrite Hm. set (t := now Date_now) in *. set (last := lastUpdatedAt c) in *.
  exact_arith. unfold epoch_second in *.
  rewrite strict_eq_Int, ge_Int, gt_Int.
  pose proof (Z.mod_pos_bound t m (proj1 Hpos)) as Hidx.
  destruct (Z.eqb_spec (t - last) 1) as [He1|He1].
  - rewrite rem_Int, set_Int by lia. unfold bucket.
    destruct (Z.eqb_spec i (t mod m)) as [->|Hne].
    + rewrite nth_update_eq by lia. reflexivity.
    + rewrite nth_update_ne by lia. reflexivity.
  - destruct (Z.leb_spec m (t - last)) as [Hge|Hlt].
    + rewrite bucket_fill by lia. simpl.
      destruct (Z.leb_spec 0 i), (Z.ltb_spec i (Z.of_nat (length (data c)))); simpl; auto; lia.
    + destruct (Z.ltb_spec 1 (t - last)) as [Hgt|Hle]; [|reflexivity].
      rewrite !rem_Int by lia.
      pose proof (Z.mod_pos_bound (last + 1) m (proj1 Hpos)) as Hs.
      pose proof (Z.mod_pos_bound (t + 1) m (proj1 Hpos)) as He.
      set (s := (last + 1) mod m) in *. set (e := (t + 1) mod m) in *.
      rewrite lt_Int. unfold segments.
      destruct (Z.ltb_spec s e) as [Hse|Hse].
      * rewrite bucket_fill by lia. simpl. rewrite Hlen.
        destruct (Z.ltb_spec s 0), (Z.ltb_spec e 0); try lia.
        rewrite !Z.min_l by lia. reflexivity.
      * rewrite bucket_fill by (rewrite length_fill; lia).
        rewrite bucket_fill by lia. rewrite length_fill. simpl. rewrite Hlen.
        destruct (Z.ltb_spec s 0), (Z.ltb_spec e 0), (Z.ltb_spec m 0); try lia.
        rewrite !Z.min_l by lia. change (ToUint32 (Int 0)) with 0.
        destruct (Z.leb_spec s i), (Z.leb_spec 0 i), (Z.ltb_spec i e), (Z.ltb_spec i m);
          simpl; auto; lia.
Qed.

(** In the second of the last access nothing changes. *)
Lemma getIndex_same_second m Date_now c :
  wf m c -> now Date_now = c.(lastUpdatedAt) ->
  (snd (_getIndex Date_now c)).(data) = c.(data).
Proof.
  intros [Hm Hpos _ _ _] Ht. unfold _getIndex; simpl.
  rewrite Hm, Ht, Z.sub_diag. exact_arith. rewrite strict_eq_Int, ge_Int, gt_Int.
  destruct (Z.leb_spec m 0); [lia|]. reflexivity.
Qed.

(** ** Arithmetic of the circular index space *)

Lemma mod_sub_small m a b :
  0 <= a < m -> 0 <= b < m ->
  (a - b) mod m = if b <=? a then a - b else a - b + m.
Proof.
  intros Ha Hb. destruct (Z.leb_spec b a).
  - apply Z.mod_small. lia.
  - symmetry. apply Z.mod_unique with (q := -1); lia.
Qed.

Lemma mod_eq_multiple m a b :
  0 < m -> a mod m = b mod m -> exists k, b - a = m * k.
Proof.
  intros Hm H. exists (b / m - a / m).
  pose proof (Z.div_mod a m ltac:(lia)). pose proof (Z.div_mod b m ltac:(lia)).
  lia.
Qed.

Lemma range_ends_differ m last t :
  0 < m -> 1 < t - last < m -> (last + 1) mod m <> (t + 1) mod m.
Proof.
  intros Hm H Heq. apply mod_eq_multiple in Heq as [k Hk]; [|assumption].
  assert (0 < k) by nia. nia.
Qed.

Lemma circular_range_segments m s e i :
  0 <= s < m -> 0 <= e < m -> 0 <= i < m -> s <> e ->
  circular_range m s e i = segments m s e i.
Proof.
  intros Hs He Hi Hne. unfold circular_range, segments.
  rewrite !mod_sub_small by lia.
  destruct (Z.leb_spec s i), (Z.leb_spec s e), (Z.ltb_spec s e), (Z.leb_spec 0 i),
    (Z.ltb_spec i e), (Z.ltb_spec i m); simpl; try lia;
    match goal with |- (?a <? ?b) = _ => destruct (Z.ltb_spec a b) end; lia.
Qed.

(** C1: for an instance of the data model and a clock that did not go
    back, [_getIndex] returns [now mod maxDuration] and zeroes the buckets
    the elapsed time dictates: none when no second elapsed; the bucket at
    [now mod maxDuration] only when one second elapsed; every bucket when
    [maxDuration] seconds or more elapsed; and otherwise exactly the
    circular half-open range from [(lastUpdatedAt + 1) mod maxDuration] to
    [(now + 1) mod maxDuration], which is one segment of the buffer, or two
    when it wraps past the end.  Every other bucket keeps its value. *)
Theorem getIndex_zeroes_by_elapsed_time (m Date_now : Z) (c : Counter.t) :
  wf m c ->
  epoch_second (now Date_now) ->
  c.(lastUpdatedAt) <= now Date_now ->
  let t := now Date_now in
  let last := c.(lastUpdatedAt) in
  let elapsed := t - last in
  let s := (last + 1) mod m in
  let e := (t + 1) mod m in
  let before := c.(data) in
  let after := (snd (_getIndex Date_now c)).(data) in
  fst (_getIndex Date_now c) = Int (t mod m) /\
  length after = length before /\
  (elapsed = 0 -> after = before) /\
  (elapsed = 1 ->
   forall i, 0 <= i < m ->
     bucket after i = if i =? t mod m then 0 else bucket before i) /\
  (m <= elapsed -> forall i, 0 <= i < m -> bucket after i = 0) /\
  (1 < elapsed < m ->
   forall i, 0 <= i < m ->
     bucket after i = (if circular_range m s e i then 0 else bucket before i) /\
     circular_range m s e i = segments m s e i).
Proof.
  intros Hwf Ht Hclock t last elapsed s e before after.
  pose proof Hwf as [Hm Hpos Hlen Hu Hl].
  split; [now apply getIndex_index|].
  split; [apply getIndex_length|].
  split; [|split; [|split]].
  - intros He0. apply getIndex_same_second with (m := m); auto.
    fold t last. lia.
  - intros He1 i Hi. unfold after. rewrite (getIndex_bucket m) by auto.
    unfold policy. fold t last elapsed.
    destruct (Z.eqb_spec elapsed 1); [reflexivity|lia].
  - intros Hge i Hi. unfold after. rewrite (getIndex_bucket m) by auto.
    unfold policy. fold t last elapsed.
    destruct (Z.eqb_spec elapsed 1) as [He1|He1].
    + assert (Hm1 : m = 1) by lia. rewrite Hm1 in Hi |- *.
      rewrite Z.mod_1_r. destruct (Z.eqb_spec i 0); [reflexivity|lia].
    + destruct (Z.leb_spec m elapsed); [reflexivity|lia].
  - intros Hmid i Hi.
    assert (Hcs : circular_range m s e i = segments m s e i).
    { apply circular_range_segments; auto.
      - apply Z.mod_pos_bound; lia.
      - apply Z.mod_pos_bound; lia.
      - apply range_ends_differ; [lia|assumption]. }
    split; [|exact Hcs].
    unfold after. rewrite (getIndex_bucket m) by auto.
    unfold policy. fold t last elapsed s e.
    destruct (Z.eqb_spec elapsed 1); [lia|].
    destruct (Z.leb_spec m elapsed); [lia|].
    destruct (Z.ltb_spec 1 elapsed); [|lia].
    now rewrite Hcs.
Qed.

Lemma getIndex_zeroes_by_elapsed_time_witness :
  fst (_getIndex 12999 four) = Int 0 /\
  (snd (_getIndex 12999 four)).(data) = [0; 2; 3; 0].
Proof.
  assert (Hwf : wf 4 four).
  { solve_wf. }
  assert (Ht : epoch_second (now 12999)) by (vm_compute; split; discriminate).
  assert (Hclock : four.(lastUpdatedAt) <= now 12999) by (vm_compute; discriminate).
  pose proof (getIndex_zeroes_by_elapsed_time 4 12999 four Hwf Ht Hclock) as H.
  split; [apply H | reflexivity].
Defined.

(* ================================================================== *)
(** * increment *)
(* ================================================================== *)

Lemma element_index_lt len i k : element_index len i = Some k -> (k < len)%nat.
Proof.
  unfold element_index. destruct (integer_value i) as [z|]; [|discriminate].
  destruct (Z.leb_spec 0 z), (Z.ltb_spec z (Z.of_nat len)); simpl; try discriminate.
  intros [= <-]. lia.
Qed.

Lemma update_update k x y a : update k x (update k y a) = update k x a.
Proof.
  revert k; induction a as [|h t IH]; intros [|k]; simpl; auto. now rewrite IH.
Qed.

Lemma update_nth k a : update k (nth k a 0) a = a.
Proof.
  revert k; induction a as [|h t IH]; intros [|k]; simpl; auto. now rewrite IH.
Qed.

Lemma Forall_nth_uint32 k a : Forall uint32 a -> uint32 (nth k a 0).
Proof.
  intros H. destruct (nth_in_or_default k a 0) as [Hin| ->].
  - rewrite Forall_forall in H. auto.
  - unfold uint32, UINT32_MAX. lia.
Qed.

Lemma t_eta (c : Counter.t) :
  {| maxDuration := c.(maxDuration); data := c.(data);
     lastUpdatedAt := c.(lastUpdatedAt) |} = c.
Proof. now destruct c. Qed.

(** [increment] on any instance, by the bucket [_getIndex] designates: a
    designated bucket at the 32-bit maximum is put back and the call fails;
    below the maximum it gains one; with no bucket designated nothing is
    written. *)
Lemma increment_cases Date_now c :
  Forall uint32 c.(data) ->
  let index := fst (_getIndex Date_now c) in
  let c1 := snd (_getIndex Date_now c) in
  increment Date_now c =
    match element_index (length c1.(data)) index with
    | None => (true, c1)
    | Some k =>
        let v := nth k c1.(data) 0 in
        if v =? UINT32_MAX then (false, c1)
        else (true, {| maxDuration := c1.(maxDuration);
                       data := update k (v + 1) c1.(data);
                       lastUpdatedAt := c1.(lastUpdatedAt) |})
    end.
Proof.
  intros Hu index c1. unfold increment.
  pose proof (getIndex_uint32 Date_now c Hu) as Hu1. fold c1 in Hu1.
  rewrite (surjective_pairing (_getIndex Date_now c)). fold index c1.
  clearbody index c1. unfold get, set.
  destruct (element_index (length (data c1)) index) as [k|] eqn:Hk.
  - pose proof (element_index_lt _ _ _ Hk) as Hlt.
    rewrite length_update, Hk. simpl.
    rewrite nth_update_eq by assumption. rewrite strict_eq_Int, !ToUint32_Int.
    pose proof (Forall_nth_uint32 k _ Hu1) as Hv.
    set (v := nth k (data c1) 0) in *.
    unfold uint32, UINT32_MAX in *.
    rewrite (round53_exact (v + 1)) by lia.
    destruct (Z.eqb_spec v 4294967295) as [Hmax|Hmax].
    + rewrite update_update, (Z.mod_small v) by lia.
      unfold v at 2. rewrite update_nth, t_eta, Hmax. reflexivity.
    + rewrite (Z.mod_small (v + 1)) by lia.
      destruct (Z.eqb_spec (v + 1) 0); [lia|]. reflexivity.
  - rewrite Hk. simpl. now rewrite t_eta.
Qed.

(** [increment] on an instance of the data model. *)
Lemma increment_wf_cases m Date_now c :
  wf m c -> epoch_second (now Date_now) ->
  let c1 := snd (_getIndex Date_now c) in
  let index := now Date_now mod m in
  let v := bucket c1.(data) index in
  increment Date_now c =
    if v =? UINT32_MAX then (false, c1)
    else (true, {| maxDuration := c1.(maxDuration);
                   data := update (Z.to_nat index) (v + 1) c1.(data);
                   lastUpdatedAt := c1.(lastUpdatedAt) |}).
Proof.
  intros Hwf Ht c1 index v. pose proof Hwf as [Hm Hpos Hlen Hu Hl].
  rewrite increment_cases by assumption. fold c1.
  rewrite (getIndex_index m) by assumption. fold index.
  pose proof (Z.mod_pos_bound (now Date_now) m (proj1 Hpos)) as Hidx. fold index in Hidx.
  rewrite element_index_Int; [reflexivity|].
  unfold c1. rewrite getIndex_length. lia.
Qed.

Lemma increment_lastUpdatedAt Date_now c :
  (snd (increment Date_now c)).(lastUpdatedAt) = now Date_now.
Proof.
  unfold increment.
  pose proof (getIndex_lastUpdatedAt Date_now c) as H.
  destruct (_getIndex Date_now c) as [index c1]. cbn [snd] in H.
  destruct (strict_eq_value _ _); exact H.
Qed.

Lemma increment_wf m Date_now c :
  wf m c -> epoch_second (now Date_now) -> wf m (snd (increment Date_now c)).
Proof.
  intros Hwf Ht. pose proof (getIndex_wf m Date_now c Hwf Ht) as [Hm Hpos Hlen Hu Hl].
  rewrite (increment_wf_cases m) by assumption.
  set (c1 := snd (_getIndex Date_now c)) in *. clearbody c1.
  destruct (Z.eqb_spec (bucket (data c1) (now Date_now mod m)) UINT32_MAX) as [E|E]; simpl.
  - now constructor.
  - constructor; simpl; auto.
    + now rewrite length_update.
    + apply Forall_update; auto.
      pose proof (Forall_nth_uint32 (Z.to_nat (now Date_now mod m)) _ Hu) as Hv.
      unfold bucket, uint32 in *. lia.
Qed.

Lemma policy_all m last t i :
  0 < m -> m <= t - last -> 0 <= i < m -> policy m last t i = true.
Proof.
  intros Hm He Hi. unfold policy.
  destruct (Z.eqb_spec (t - last) 1).
  - assert (Hm1 : m = 1) by lia. rewrite Hm1 in *. rewrite Z.mod_1_r.
    destruct (Z.eqb_spec i 0); [reflexivity|lia].
  - destruct (Z.leb_spec m (t - last)); [reflexivity|lia].
Qed.

Lemma bucket_update_eq a i x :
  0 <= i < Z.of_nat (length a) -> bucket (update (Z.to_nat i) x a) i = x.
Proof. intros H. unfold bucket. apply nth_update_eq. lia. Qed.

Lemma bucket_update_ne a i j x :
  0 <= i -> 0 <= j -> j <> i -> bucket (update (Z.to_nat i) x a) j = bucket a j.
Proof. intros Hi Hj H. unfold bucket. apply nth_update_ne. lia. Qed.

(** C4: on an instance of the data model, when the bucket of the current
    second holds [v] after the buffer advance, [increment] returns [false]
    and leaves 4294967295 in the bucket if [v] is 4294967295, and returns
    [true] with [v + 1] in the bucket if [v] is smaller; no other bucket
    changes. *)
Theorem increment_overflow_policy (m Date_now : Z) (c : Counter.t) :
  wf m c ->
  epoch_second (now Date_now) ->
  let index := now Date_now mod m in
  let advanced := (snd (_getIndex Date_now c)).(data) in
  let v := bucket advanced index in
  let result := increment Date_now c in
  (v = UINT32_MAX ->
   fst result = false /\ bucket (snd result).(data) index = UINT32_MAX) /\
  (v < UINT32_MAX ->
   fst result = true /\ bucket (snd result).(data) index = v + 1) /\
  (forall i, 0 <= i < m -> i <> index ->
   bucket (snd result).(data) i = bucket advanced i).
Proof.
  intros Hwf Ht index advanced v result.
  pose proof (getIndex_wf m Date_now c Hwf Ht) as [Hm Hpos Hlen Hu Hl].
  pose proof (Z.mod_pos_bound (now Date_now) m (proj1 Hpos)) as Hidx. fold index in Hidx.
  unfold result. rewrite (increment_wf_cases m) by assumption.
  fold index advanced v.
  destruct (Z.eqb_spec v UINT32_MAX) as [E|E]; simpl; fold advanced.
  - repeat split; auto; lia.
  - split; [lia|]. split.
    + intros _. split; [reflexivity|].
      apply bucket_update_eq. fold advanced in Hlen. lia.
    + intros i Hi Hne. apply bucket_update_ne; lia.
Qed.

Lemma increment_overflow_policy_witness :
  (fst (increment 10000 saturated) = false /\
   bucket (snd (increment 10000 saturated)).(data) (now 10000 mod 4) = UINT32_MAX) /\
  (fst (increment 10000 four) = true /\
   bucket (snd (increment 10000 four)).(data) (now 10000 mod 4) = 3 + 1).
Proof.
  assert (Hs : wf 4 saturated).
  { solve_wf. }
  assert (Hf : wf 4 four).
  { solve_wf. }
  assert (Ht : epoch_second (now 10000)) by (vm_compute; split; discriminate).
  pose proof (increment_overflow_policy 4 10000 saturated Hs Ht) as [H1 _].
  pose proof (increment_overflow_policy 4 10000 four Hf Ht) as [_ [H2 _]].
  split.
  - apply H1. reflexivity.
  - apply H2. reflexivity.
Defined.

(** C7: when [increment] fails, the instance is left exactly as the buffer
    advance leaves it: [lastUpdatedAt] is the current second and the
    buckets are those [_getIndex] produced, none of them touched by the
    failed increment.  This holds for every instance whose array elements
    are 32-bit values. *)
Theorem failed_increment_only_advances (Date_now : Z) (c : Counter.t) :
  Forall uint32 c.(data) ->
  fst (increment Date_now c) = false ->
  snd (increment Date_now c) = snd (_getIndex Date_now c) /\
  (snd (increment Date_now c)).(lastUpdatedAt) = now Date_now.
Proof.
  intros Hu Hfail. split; [|apply increment_lastUpdatedAt].
  rewrite increment_cases in Hfail |- * by assumption.
  destruct (element_index _ _) as [k|]; [|discriminate].
  cbv zeta in *. destruct (_ =? _); [reflexivity|discriminate].
Qed.

Lemma failed_increment_only_advances_witness :
  snd (increment 10500 saturated) = snd (_getIndex 10500 saturated) /\
  (snd (increment 10500 saturated)).(lastUpdatedAt) = now 10500.
Proof.
  apply (failed_increment_only_advances 10500 saturated).
  - repeat constructor; unfold UINT32_MAX; lia.
  - reflexivity.
Defined.

(** C8: on an instance of the data model whose buckets all hold 1, an
    [increment] that comes [maxDuration] seconds or more after the last
    access leaves 1 in the bucket at [now mod maxDuration] and 0 in every
    other bucket. *)
Theorem increment_after_inactivity (m Date_now : Z) (c : Counter.t) :
  wf m c ->
  epoch_second (now Date_now) ->
  Forall (fun v => v = 1) c.(data) ->
  m <= now Date_now - c.(lastUpdatedAt) ->
  let after := (snd (increment Date_now c)).(data) in
  length after = length c.(data) /\
  forall i, 0 <= i < m ->
    bucket after i = if i =? now Date_now mod m then 1 else 0.
Proof.
  intros Hwf Ht Hones Hidle after.
  pose proof Hwf as [Hm Hpos Hlen Hu Hl].
  pose proof (Z.mod_pos_bound (now Date_now) m (proj1 Hpos)) as Hidx.
  assert (Hzero : forall i, 0 <= i < m ->
            bucket (snd (_getIndex Date_now c)).(data) i = 0).
  { intros i Hi. rewrite (getIndex_bucket m) by assumption.
    now rewrite policy_all by (assumption || apply Hpos). }
  unfold after. rewrite (increment_wf_cases m) by assumption.
  rewrite (Hzero _ Hidx). change (0 =? UINT32_MAX) with false.
  cbn [fst snd data]. split.
  - now rewrite length_update, getIndex_length.
  - intros i Hi. destruct (Z.eqb_spec i (now Date_now mod m)) as [->|Hne].
    + apply bucket_update_eq. rewrite getIndex_length. lia.
    + rewrite bucket_update_ne by lia. now apply Hzero.
Qed.

Lemma increment_after_inactivity_witness :
  bucket (snd (increment 14000 ones)).(data) 2 = (if 2 =? now 14000 mod 4 then 1 else 0) /\
  bucket (snd (increment 14000 ones)).(data) 3 = (if 3 =? now 14000 mod 4 then 1 else 0).
Proof.
  assert (Hwf : wf 4 ones).
  { solve_wf. }
  assert (Hones : Forall (fun v => v = 1) ones.(data)) by (repeat constructor).
  assert (Ht : epoch_second (now 14000)) by (vm_compute; split; discriminate).
  assert (Hidle : 4 <= now 14000 - ones.(lastUpdatedAt)) by (vm_compute; discriminate).
  pose proof (increment_after_inactivity 4 14000 ones Hwf Ht Hones Hidle) as [_ H].
  split; apply H; lia.
Defined.

(* ================================================================== *)
(** * getCount *)
(* ================================================================== *)

Lemma sum_snoc l y : fold_right Z.add 0 (l ++ [y]) = fold_right Z.add 0 l + y.
Proof. induction l as [|h t IH]; simpl; lia. Qed.

(** A window one second longer adds the bucket one step further back. *)
Lemma window_sum_succ a m index n :
  window_sum a m index (Z.of_nat (S n)) =
    window_sum a m index (Z.of_nat n) + bucket a ((index - Z.of_nat n) mod m).
Proof.
  unfold window_sum, window. rewrite !Nat2Z.id, seq_S, !map_app. simpl.
  apply sum_snoc.
Qed.

Lemma window_sum_0 a m index : window_sum a m index 0 = 0.
Proof. reflexivity. Qed.

Lemma window_sum_bounds a m index d :
  Forall uint32 a -> 0 <= d ->
  0 <= window_sum a m index d <= d * UINT32_MAX.
Proof.
  intros Hu Hd. rewrite <- (Z2Nat.id d Hd). clear Hd.
  induction (Z.to_nat d) as [|n IH].
  - rewrite window_sum_0. simpl. lia.
  - rewrite window_sum_succ.
    pose proof (Forall_nth_uint32 (Z.to_nat ((index - Z.of_nat n) mod m)) a Hu) as Hb.
    unfold bucket, uint32 in *. lia.
Qed.

Lemma window_sum_mono a m index d1 d2 :
  Forall uint32 a -> 0 <= d1 <= d2 ->
  window_sum a m index d1 <= window_sum a m index d2.
Proof.
  intros Hu [H1 H2].
  rewrite <- (Z2Nat.id d1 H1), <- (Z2Nat.id d2 ltac:(lia)).
  assert (Hle : (Z.to_nat d1 <= Z.to_nat d2)%nat) by lia.
  induction Hle as [|n Hle IH]; [lia|].
  rewrite window_sum_succ.
  pose proof (Forall_nth_uint32 (Z.to_nat ((index - Z.of_nat n) mod m)) a Hu) as Hb.
  unfold bucket, uint32 in *. lia.
Qed.

(** The loop of [getCount] on integers: from [i = n - 1] it adds to
    [count] the buckets of the window of [n] seconds, and it ends within
    the [n] iterations it is given.  The count is a double: it is the exact
    sum as long as that is a safe integer, and beyond it stays above the
    safe integers, whatever the rounding. *)
Lemma count_loop_Int a m index : forall n acc,
  Z.of_nat (length a) = m -> m <= MAX_SAFE_INTEGER -> Forall uint32 a ->
  0 <= index < m -> Z.of_nat n <= m -> 0 <= acc ->
  exists r,
    count_loop n a (Int m) (Int index) (Int (Z.of_nat n - 1)) (Int acc) = Some (Int r) /\
    (acc + window_sum a m index (Z.of_nat n) <= MAX_SAFE_INTEGER ->
     r = acc + window_sum a m index (Z.of_nat n)) /\
    (MAX_SAFE_INTEGER < acc + window_sum a m index (Z.of_nat n) ->
     MAX_SAFE_INTEGER < r).
Proof.
  induction n as [|n IH]; intros acc Hlen Hsafe Hu Hidx Hn Hacc.
  - exists acc. rewrite window_sum_0, Z.add_0_r. repeat split; auto.
  - cbn [count_loop]. rewrite ge_Int.
    replace (Z.of_nat (S n) - 1) with (Z.of_nat n) by lia.
    destruct (Z.leb_spec 0 (Z.of_nat n)); [|lia].
    unfold MAX_SAFE_INTEGER in *.
    rewrite !sub_Int by lia. rewrite lt_Int.
    assert (Hwrap : (if index - Z.of_nat n <? 0
                     then add (Int (index - Z.of_nat n)) (Int m)
                     else Int (index - Z.of_nat n))
                    = Int ((index - Z.of_nat n) mod m)).
    { rewrite mod_sub_small by lia.
      destruct (Z.ltb_spec (index - Z.of_nat n) 0), (Z.leb_spec (Z.of_nat n) index);
        try lia; [apply add_Int; lia|reflexivity]. }
    rewrite Hwrap.
    pose proof (Z.mod_pos_bound (index - Z.of_nat n) m ltac:(lia)) as Hb.
    rewrite get_Int by lia. cbn [ToNumber add].
    pose proof (Forall_nth_uint32 (Z.to_nat ((index - Z.of_nat n) mod m)) a Hu) as Hv.
    fold (bucket a ((index - Z.of_nat n) mod m)) in Hv.
    set (b := bucket a ((index - Z.of_nat n) mod m)) in *.
    pose proof (window_sum_bounds a m index (Z.of_nat n) Hu ltac:(lia)) as Hw.
    rewrite window_sum_succ. fold b.
    set (w := window_sum a m index (Z.of_nat n)) in *.
    unfold uint32, UINT32_MAX in *.
    assert (Hn' : Z.of_nat n <= m) by lia.
    destruct (Z.le_gt_cases (acc + b) (2 ^ 53)) as [Hexact|Hround].
    + rewrite round53_exact by lia.
      assert (Hacc' : 0 <= acc + b) by lia.
      destruct (IH (acc + b) Hlen Hsafe Hu Hidx Hn' Hacc') as [r [Hr [Hr1 Hr2]]].
      exists r. rewrite Hr. repeat split; intros; [rewrite Hr1|apply Hr2]; lia.
    + assert (Hlarge : 2 ^ 53 <= round53 (acc + b)) by (apply round53_large; lia).
      assert (Hacc' : 0 <= round53 (acc + b)) by lia.
      destruct (IH (round53 (acc + b)) Hlen Hsafe Hu Hidx Hn' Hacc') as [r [Hr [Hr1 Hr2]]].
      exists r. rewrite Hr. repeat split; intros; [lia|apply Hr2; lia].
Qed.

(** The argument normalisation of [getCount] on integers. *)
Lemma clamp_Int m d : 0 < m -> clamp (Int m) (Num (Int d)) = Int (clamped m d).
Proof.
  intros Hm. unfold clamp, clamped. cbn [isNaN ToNumber].
  rewrite gt_Int, lt_Int.
  destruct (Z.ltb_spec m d), (Z.ltb_spec d 1); f_equal; lia.
Qed.

Lemma clamped_range m d : 0 < m -> 1 <= clamped m d <= m.
Proof. unfold clamped. lia. Qed.

Lemma clamped_id m d : 1 <= d <= m -> clamped m d = d.
Proof. unfold clamped. lia. Qed.

(** [getCount] on an instance of the data model, once the argument is
    normalised to the integer [d]: it returns, with the sum of the window
    of [d] seconds over the advanced buffer or with -1 past the safe
    integers, and leaves the instance as [_getIndex] left it. *)
Lemma getCount_wf_cases m Date_now duration c d :
  wf m c -> epoch_second (now Date_now) ->
  clamp (Int m) duration = Int d -> 1 <= d <= m ->
  let c1 := snd (_getIndex Date_now c) in
  let total := window_sum c1.(data) m (now Date_now mod m) d in
  getCount Date_now duration c =
    Some (if total <=? MAX_SAFE_INTEGER then Int total else Int (-1), c1).
Proof.
  intros Hwf Ht Hclamp Hd c1 total.
  pose proof (getIndex_wf m Date_now c Hwf Ht) as [Hm Hpos Hlen Hu Hl].
  pose proof (getIndex_index m Date_now c Hwf Ht) as Hindex.
  pose proof (Z.mod_pos_bound (now Date_now) m (proj1 Hpos)) as Hidx.
  unfold getCount. rewrite (surjective_pairing (_getIndex Date_now c)).
  fold c1 in Hm, Hlen, Hu, Hl |- *. rewrite Hindex, Hm, Hclamp.
  rewrite sub_Int by (unfold MAX_SAFE_INTEGER in *; lia).
  cbn [iterations].
  replace (d - 1 + 1) with d by lia.
  replace (d - 1) with (Z.of_nat (Z.to_nat d) - 1) by lia.
  destruct (count_loop_Int c1.(data) m (now Date_now mod m) (Z.to_nat d) 0
              Hlen (proj2 Hpos) Hu Hidx ltac:(lia) ltac:(lia)) as [r [Hr [Hr1 Hr2]]].
  rewrite Hr. rewrite Z2Nat.id, Z.add_0_l in Hr1, Hr2 by lia. fold total in Hr1, Hr2.
  rewrite le_Int.
  destruct (Z.leb_spec total MAX_SAFE_INTEGER) as [Hle|Hgt].
  - rewrite Hr1 by assumption. destruct (Z.leb_spec total MAX_SAFE_INTEGER); [reflexivity|lia].
  - specialize (Hr2 Hgt). destruct (Z.leb_spec r MAX_SAFE_INTEGER); [lia|reflexivity].
Qed.

(** ** The loop ends *)

Lemma Qfloor_pred q : Qfloor (q - inject_Z 1) = Qfloor q - 1.
Proof.
  destruct q as [n d]. unfold Qminus, Qplus, Qopp, inject_Z, Qfloor; cbn [Qnum Qden].
  rewrite Pos.mul_1_r, Z.mul_1_r.
  replace (n + - (1) * Z.pos d) with (n + (-1) * Z.pos d) by lia.
  rewrite Z.div_add by lia. lia.
Qed.

Lemma iterations_ofQ q : iterations (ofQ q) = Z.to_nat (Qfloor q + 1).
Proof.
  rewrite <- (Qfloor_comp _ _ (Qred_correct q)). unfold ofQ.
  destruct (Qred q) as [n d]. cbn [Qnum Qden].
  destruct (Pos.eqb_spec d 1) as [->|Hd]; cbn [iterations Qfloor].
  - now rewrite Z.div_1_r.
  - reflexivity.
Qed.

Lemma counts_down_ofQ q : Qfloor q <= 2 ^ 53 -> counts_down (ofQ q).
Proof.
  rewrite <- (Qfloor_comp _ _ (Qred_correct q)). unfold ofQ.
  destruct (Qred q) as [n d]. cbn [Qnum Qden].
  destruct (Pos.eqb_spec d 1) as [->|Hd]; cbn [counts_down Qfloor]; [|auto].
  now rewrite Z.div_1_r.
Qed.

Lemma Qfloor_nonneg q : (q ?= inject_Z 0)%Q <> Lt -> 0 <= Qfloor q.
Proof.
  intros H. apply Qge_alt in H. apply Qfloor_resp_le in H.
  now rewrite Qfloor_Z in H.
Qed.

(** While the guard [i >= 0] holds, one more iteration is due, and [i--]
    counts down. *)
Lemma iterations_step i :
  counts_down i -> ge i (Int 0) = true ->
  counts_down (sub i (Int 1)) /\ iterations i = S (iterations (sub i (Int 1))).
Proof.
  destruct i as [| | |z|q]; cbn [counts_down]; try contradiction; intros Hi Hge.
  - rewrite ge_Int in Hge. destruct (Z.leb_spec 0 z); [|discriminate].
    rewrite sub_Int by lia. cbn [counts_down iterations]. split; lia.
  - assert (Hq : 0 <= Qfloor q).
    { apply Qfloor_nonneg. unfold ge in Hge. cbn in Hge.
      now destruct (q ?= inject_Z 0)%Q. }
    change (sub (Frac q) (Int 1)) with (ofQ (q - inject_Z 1)).
    rewrite iterations_ofQ, Qfloor_pred. cbn [iterations].
    split; [apply counts_down_ofQ; rewrite Qfloor_pred|]; lia.
Qed.

(** From a number that counts down the loop ends within [iterations i]
    iterations. *)
Lemma count_loop_returns a maxDuration index : forall n i count,
  counts_down i -> iterations i = n ->
  exists r, count_loop n a maxDuration index i count = Some r.
Proof.
  induction n as [|n IH]; intros i count Hfin Hn.
  - cbn [count_loop]. destruct (ge i (Int 0)) eqn:Hge; [|eauto].
    destruct (iterations_step i Hfin Hge) as [_ H]. congruence.
  - cbn [count_loop]. destruct (ge i (Int 0)) eqn:Hge; [|eauto].
    destruct (iterations_step i Hfin Hge) as [Hfin' H].
    apply IH; [assumption|congruence].
Qed.

(** From [Infinity] it never ends, whatever the fuel. *)
Lemma count_loop_diverges a maxDuration index : forall n count,
  count_loop n a maxDuration index PInf count = None.
Proof.
  induction n as [|n IH]; intros count; cbn [count_loop]; [reflexivity|].
  change (ge PInf (Int 0)) with true. cbn iota.
  change (sub PInf (Int 1)) with PInf. apply IH.
Qed.

(** The first [i] of the loop counts down when [maxDuration] is an array
    length. *)
Lemma clamp_counts_down m duration :
  0 < m <= MAX_SAFE_INTEGER ->
  counts_down (sub (clamp (Int m) duration) (Int 1)).
Proof.
  unfold MAX_SAFE_INTEGER. intros Hm. unfold clamp.
  destruct (isNaN duration) eqn:Hnan;
    [rewrite sub_Int by lia; cbn [counts_down]; lia|].
  destruct (gt (ToNumber duration) (Int m)) eqn:Hgt;
    [rewrite sub_Int by lia; cbn [counts_down]; lia|].
  destruct (lt (ToNumber duration) (Int 1)) eqn:Hlt;
    [rewrite sub_Int by lia; cbn [counts_down]; lia|].
  destruct duration as [|[| | |z|q]]; try discriminate; cbn [ToNumber] in *.
  - rewrite gt_Int in Hgt. rewrite lt_Int in Hlt.
    destruct (Z.ltb_spec m z), (Z.ltb_spec z 1); try discriminate.
    rewrite sub_Int by lia. cbn [counts_down]. lia.
  - change (sub (Frac q) (Int 1)) with (ofQ (q - inject_Z 1)).
    apply counts_down_ofQ. rewrite Qfloor_pred.
    assert (Hle : (q <= inject_Z m)%Q).
    { apply Qle_alt. unfold gt in Hgt. cbn in Hgt.
      now destruct (q ?= inject_Z m)%Q. }
    apply Qfloor_resp_le in Hle. rewrite Qfloor_Z in Hle. lia.
Qed.

(** [getCount] returns on every instance whose [maxDuration] is an array
    length, for every argument; the instance is left as [_getIndex] left
    it. *)
Lemma getCount_returns m Date_now duration c :
  c.(maxDuration) = Int m -> 0 < m <= MAX_SAFE_INTEGER ->
  exists r, getCount Date_now duration c = Some (r, snd (_getIndex Date_now c)).
Proof.
  intros Hm Hpos. unfold getCount.
  pose proof (getIndex_maxDuration Date_now c) as Hmax.
  destruct (_getIndex Date_now c) as [index c1]. cbn [snd] in *.
  rewrite Hmax, Hm.
  destruct (count_loop_returns c1.(data) (Int m) index _
              (sub (clamp (Int m) duration) (Int 1)) (Int 0)
              (clamp_counts_down m duration Hpos) eq_refl) as [r ->].
  destruct (le r (Int MAX_SAFE_INTEGER)); eauto.
Qed.

(** C5: on an instance of the data model, for an integer [d] between 1 and
    [maxDuration], [getCount(d)] returns the sum of the buckets at the [d]
    most recent positions [index, index - 1, ..., index - d + 1], wrapped
    modulo [maxDuration], of the advanced buffer when that sum is at most
    [2^53 - 1], and -1 when it is larger. *)
Theorem getCount_sums_window (m Date_now : Z) (c : Counter.t) (d : Z) :
  wf m c ->
  epoch_second (now Date_now) ->
  1 <= d <= m ->
  let index := now Date_now mod m in
  let advanced := snd (_getIndex Date_now c) in
  let total := window_sum advanced.(data) m index d in
  (total <= 2 ^ 53 - 1 ->
   getCount Date_now (Num (Int d)) c = Some (Int total, advanced)) /\
  (2 ^ 53 - 1 < total ->
   getCount Date_now (Num (Int d)) c = Some (Int (-1), advanced)).
Proof.
  intros Hwf Ht Hd index advanced total.
  pose proof Hwf as [_ Hpos _ _ _].
  assert (Hclamp : clamp (Int m) (Num (Int d)) = Int d)
    by (rewrite clamp_Int, clamped_id by lia; reflexivity).
  rewrite (getCount_wf_cases m Date_now _ c d Hwf Ht Hclamp Hd).
  fold index advanced total. unfold MAX_SAFE_INTEGER.
  split; intros H; destruct (Z.leb_spec total (2 ^ 53 - 1)); auto; lia.
Qed.

Lemma getCount_sums_window_witness :
  getCount 10000 (Num (Int 3)) four = Some (Int (3 + (2 + (1 + 0))), four).
Proof.
  assert (Hwf : wf 4 four).
  { solve_wf. }
  assert (Ht : epoch_second (now 10000)) by (vm_compute; split; discriminate).
  assert (Hd : 1 <= 3 <= 4) by lia.
  pose proof (getCount_sums_window 4 10000 four 3 Hwf Ht Hd) as [H _].
  apply H. vm_compute. discriminate.
Defined.

(** [getCount] depends on its argument through the normalised duration
    only. *)
Lemma getCount_clamp Date_now c d1 d2 :
  clamp c.(maxDuration) d1 = clamp c.(maxDuration) d2 ->
  getCount Date_now d1 c = getCount Date_now d2 c.
Proof.
  intros H. unfold getCount.
  pose proof (getIndex_maxDuration Date_now c) as Hmax.
  destruct (_getIndex Date_now c) as [index c1]. cbn [snd] in Hmax.
  now rewrite Hmax, H.
Qed.

Lemma clamp_maxDuration m : 0 < m -> clamp (Int m) (Num (Int m)) = Int m.
Proof. intros H. rewrite clamp_Int, clamped_id by lia. reflexivity. Qed.

(** A number below 1 is a number, and is not above a positive integer. *)
Lemma below_one n m :
  0 < m -> lt n (Int 1) = true ->
  isNaN (Num n) = false /\ gt n (Int m) = false.
Proof.
  intros Hm. unfold lt, gt, isNaN. destruct n as [| | |z|q]; cbn; try discriminate; auto.
  - destruct (Z.compare_spec z 1), (Z.compare_spec z m); try discriminate; auto; lia.
  - destruct (q ?= inject_Z 1)%Q eqn:H1; try discriminate. intros _.
    destruct (q ?= inject_Z m)%Q eqn:Hm'; auto.
    apply Qlt_alt in H1. apply Qgt_alt in Hm'.
    assert (H : (inject_Z 1 <= inject_Z m)%Q) by (rewrite <- Zle_Qle; lia).
    exfalso. apply (Qlt_irrefl q).
    eapply Qlt_trans; [exact H1|]. eapply Qle_lt_trans; eassumption.
Qed.

(** C6: on an instance of the data model and at a fixed clock reading,
    [getCount] of an absent or not-a-number duration, and of a duration
    above [maxDuration], is [getCount(maxDuration)]; [getCount] of a
    duration below 1 is [getCount(1)]. *)
Theorem getCount_clamps_duration (m Date_now : Z) (c : Counter.t) (duration : Value) :
  wf m c ->
  (isNaN duration = true ->
   getCount Date_now duration c = getCount Date_now (Num (Int m)) c) /\
  (gt (ToNumber duration) (Int m) = true ->
   getCount Date_now duration c = getCount Date_now (Num (Int m)) c) /\
  (lt (ToNumber duration) (Int 1) = true ->
   getCount Date_now duration c = getCount Date_now (Num (Int 1)) c).
Proof.
  intros [Hm [Hpos _] _ _ _].
  repeat split; intros H; apply getCount_clamp; rewrite Hm.
  - rewrite clamp_maxDuration by assumption. unfold clamp. now rewrite H.
  - rewrite clamp_maxDuration by assumption. unfold clamp. rewrite H.
    now destruct (isNaN duration).
  - rewrite clamp_Int by assumption.
    replace (clamped m 1) with 1 by (unfold clamped; lia).
    destruct duration as [|n]; [discriminate|]. cbn [ToNumber] in H.
    destruct (below_one n m Hpos H) as [Hnan Hgt].
    unfold clamp. cbn [ToNumber]. now rewrite Hnan, Hgt, H.
Qed.

Lemma getCount_clamps_duration_witness :
  getCount 10000 Undefined four = getCount 10000 (Num (Int 4)) four /\
  getCount 10000 (Num (Int 100)) four = getCount 10000 (Num (Int 4)) four /\
  getCount 10000 (Num (Int 0)) four = getCount 10000 (Num (Int 1)) four.
Proof.
  assert (Hwf : wf 4 four).
  { solve_wf. }
  destruct (getCount_clamps_duration 4 10000 four Undefined Hwf) as [Habsent _].
  destruct (getCount_clamps_duration 4 10000 four (Num (Int 100)) Hwf) as [_ [Habove _]].
  destruct (getCount_clamps_duration 4 10000 four (Num (Int 0)) Hwf) as [_ [_ Hbelow]].
  split; [|split].
  - apply Habsent. reflexivity.
  - apply Habove. reflexivity.
  - apply Hbelow. reflexivity.
Defined.

(** C9: on an instance of the data model with at most 2097152 buckets, for
    every integer duration [getCount] returns the sum of the window of the
    normalised duration; the sum is non-negative and at most [2^53 - 1], so
    the answer is never the -1 of the overflow branch. *)
Theorem getCount_small_never_overflows (m Date_now : Z) (c : Counter.t) (d : Z) :
  wf m c ->
  epoch_second (now Date_now) ->
  m <= 2097152 ->
  let advanced := snd (_getIndex Date_now c) in
  let total := window_sum advanced.(data) m (now Date_now mod m) (clamped m d) in
  getCount Date_now (Num (Int d)) c = Some (Int total, advanced) /\
  0 <= total <= MAX_SAFE_INTEGER /\
  m * UINT32_MAX <= MAX_SAFE_INTEGER.
Proof.
  intros Hwf Ht Hsmall advanced total.
  pose proof Hwf as [_ Hpos _ _ _].
  pose proof (getIndex_wf m Date_now c Hwf Ht) as [_ _ _ Hu _]. fold advanced in Hu.
  pose proof (clamped_range m d (proj1 Hpos)) as Hd.
  pose proof (window_sum_bounds advanced.(data) m (now Date_now mod m) (clamped m d)
                Hu ltac:(lia)) as Hb.
  fold total in Hb.
  assert (Hsafe : 0 <= total <= MAX_SAFE_INTEGER /\ m * UINT32_MAX <= MAX_SAFE_INTEGER).
  { unfold MAX_SAFE_INTEGER, UINT32_MAX in *.
    change (2 ^ 53 - 1) with 9007199254740991. lia. }
  split; [|exact Hsafe].
  rewrite (getCount_wf_cases m Date_now _ c (clamped m d) Hwf Ht
             (clamp_Int m d (proj1 Hpos)) Hd).
  fold advanced total.
  destruct (Z.leb_spec total MAX_SAFE_INTEGER); [reflexivity|lia].
Qed.

Lemma getCount_small_never_overflows_witness :
  getCount 10000 (Num (Int 7)) saturated =
    Some (Int (window_sum (snd (_getIndex 10000 saturated)).(data) 4
                          (now 10000 mod 4) (clamped 4 7)),
          snd (_getIndex 10000 saturated)).
Proof.
  assert (Hwf : wf 4 saturated).
  { solve_wf. }
  assert (Ht : epoch_second (now 10000)) by (vm_compute; split; discriminate).
  assert (Hsmall : 4 <= 2097152) by lia.
  exact (proj1 (getCount_small_never_overflows 4 10000 saturated 7 Hwf Ht Hsmall)).
Defined.

(** A second [_getIndex] at the same clock reading changes nothing. *)
Lemma getIndex_again m Date_now c :
  wf m c -> epoch_second (now Date_now) ->
  snd (_getIndex Date_now (snd (_getIndex Date_now c))) = snd (_getIndex Date_now c).
Proof.
  intros Hwf Ht. pose proof (getIndex_wf m Date_now c Hwf Ht) as Hwf1.
  pose proof (getIndex_lastUpdatedAt Date_now c) as Hl1.
  set (c1 := snd (_getIndex Date_now c)) in *. clearbody c1.
  pose proof (getIndex_same_second m Date_now c1 Hwf1 (eq_sym Hl1)) as Hdata.
  pose proof (getIndex_maxDuration Date_now c1) as Hmax.
  pose proof (getIndex_lastUpdatedAt Date_now c1) as Hlast.
  destruct (snd (_getIndex Date_now c1)) as [x y z].
  cbn [maxDuration data lastUpdatedAt] in *.
  subst x y z. rewrite <- Hl1. apply t_eta.
Qed.

(** C10: on an instance of the data model and at a fixed clock reading, for
    integers [1 <= d1 <= d2 <= maxDuration], both [getCount(d1)] and
    [getCount(d2)] return, and unless one of them answers -1 the first
    answer is at most the second.  The same holds when [getCount(d2)] is
    called on the instance as [getCount(d1)] left it. *)
Theorem getCount_monotone (m Date_now : Z) (c : Counter.t) (d1 d2 : Z) :
  wf m c ->
  epoch_second (now Date_now) ->
  1 <= d1 <= d2 ->
  d2 <= m ->
  exists r1 r2 c',
    getCount Date_now (Num (Int d1)) c = Some (Int r1, c') /\
    getCount Date_now (Num (Int d2)) c = Some (Int r2, c') /\
    getCount Date_now (Num (Int d2)) c' = Some (Int r2, c') /\
    (r1 <> -1 -> r2 <> -1 -> r1 <= r2).
Proof.
  intros Hwf Ht Hd1 Hd2.
  pose proof Hwf as [_ Hpos _ _ _].
  pose proof (getIndex_wf m Date_now c Hwf Ht) as Hwf1.
  pose proof Hwf1 as [_ _ _ Hu _].
  assert (Hc1 : clamp (Int m) (Num (Int d1)) = Int d1)
    by (rewrite clamp_Int, clamped_id by lia; reflexivity).
  assert (Hc2 : clamp (Int m) (Num (Int d2)) = Int d2)
    by (rewrite clamp_Int, clamped_id by lia; reflexivity).
  pose proof (getCount_wf_cases m Date_now _ c d1 Hwf Ht Hc1 ltac:(lia)) as G1.
  pose proof (getCount_wf_cases m Date_now _ c d2 Hwf Ht Hc2 ltac:(lia)) as G2.
  pose proof (getCount_wf_cases m Date_now _ _ d2 Hwf1 Ht Hc2 ltac:(lia)) as G3.
  cbv zeta in G1, G2, G3.
  rewrite !(getIndex_again m Date_now c Hwf Ht) in G3.
  pose proof (window_sum_mono (snd (_getIndex Date_now c)).(data) m
                (now Date_now mod m) d1 d2 Hu ltac:(lia)) as Hmono.
  pose proof (window_sum_bounds (snd (_getIndex Date_now c)).(data) m
                (now Date_now mod m) d1 Hu ltac:(lia)) as Hb1.
  rewrite if_Int in G1, G2, G3.
  eexists _, _, _. split; [exact G1|]. split; [exact G2|]. split; [exact G3|].
  destruct (Z.leb_spec (window_sum (snd (_getIndex Date_now c)).(data) m
                          (now Date_now mod m) d1) MAX_SAFE_INTEGER),
           (Z.leb_spec (window_sum (snd (_getIndex Date_now c)).(data) m
                          (now Date_now mod m) d2) MAX_SAFE_INTEGER); lia.
Qed.

Lemma getCount_monotone_witness :
  exists r1 r2 c',
    getCount 10000 (Num (Int 2)) four = Some (Int r1, c') /\
    getCount 10000 (Num (Int 3)) four = Some (Int r2, c') /\
    getCount 10000 (Num (Int 3)) c' = Some (Int r2, c') /\
    (r1 <> -1 -> r2 <> -1 -> r1 <= r2).
Proof.
  apply (getCount_monotone 4 10000 four 2 3).
  - solve_wf.
  - vm_compute; split; discriminate.
  - lia.
  - lia.
Defined.

(* ================================================================== *)
(** * The second of the last access *)
(* ================================================================== *)

Lemma getCount_state Date_now duration c r c' :
  getCount Date_now duration c = Some (r, c') -> c' = snd (_getIndex Date_now c).
Proof.
  unfold getCount. destruct (_getIndex Date_now c) as [index c1]. cbn [snd].
  destruct (count_loop _ _ _ _ _ _); [|discriminate].
  destruct (le _ _); now intros [= _ <-].
Qed.

(** Every operation that returns leaves the current second in
    [lastUpdatedAt], on any instance. *)
Lemma step_lastUpdatedAt Date_now op c c' :
  step Date_now op c = Some c' -> c'.(lastUpdatedAt) = now Date_now.
Proof.
  destruct op as [|duration]; cbn [step].
  - intros [= <-]. apply increment_lastUpdatedAt.
  - destruct (getCount Date_now duration c) as [[r c1]|] eqn:E; [|discriminate].
    intros [= <-]. apply getCount_state in E. subst. apply getIndex_lastUpdatedAt.
Qed.

Lemma run_nondecreasing ops : forall c,
  clock_monotone c.(lastUpdatedAt) ops -> nondecreasing c.(lastUpdatedAt) (run ops c).
Proof.
  induction ops as [|[Date_now op] rest IH]; intros c H; cbn [run]; [exact I|].
  destruct H as [Hle Hrest].
  destruct (step Date_now op c) as [c'|] eqn:E; [|exact I].
  apply step_lastUpdatedAt in E. cbn [nondecreasing]. rewrite E.
  split; [assumption|]. rewrite <- E in *. now apply IH.
Qed.

(** On an instance of the data model, after the epoch, every operation
    returns, and the instance stays in the data model. *)
Lemma step_returns m Date_now op c :
  wf m c -> epoch_second (now Date_now) ->
  exists c', step Date_now op c = Some c' /\ wf m c'.
Proof.
  intros Hwf Ht. pose proof Hwf as [Hm Hpos _ _ _].
  destruct op as [|duration]; cbn [step].
  - eexists. split; [reflexivity|]. now apply increment_wf.
  - destruct (getCount_returns m Date_now duration c Hm Hpos) as [r ->].
    eexists. split; [reflexivity|]. now apply getIndex_wf.
Qed.

Lemma run_complete m ops : forall c,
  wf m c -> Forall (fun p => epoch_second (now (fst p))) ops ->
  run ops c = map (fun p => now (fst p)) ops.
Proof.
  induction ops as [|[Date_now op] rest IH]; intros c Hwf Hops; [reflexivity|].
  inversion Hops as [|? ? Ht Hrest]; subst. cbn [fst] in Ht. cbn [run map fst].
  destruct (step_returns m Date_now op c Hwf Ht) as [c' [E Hwf']].
  rewrite E. f_equal; [now apply step_lastUpdatedAt in E|now apply IH].
Qed.

(** C3, as the code has it: an operation leaves in [lastUpdatedAt] the
    second of its own clock reading, whatever the value before; on an
    instance of the data model every operation returns, so the values of
    [lastUpdatedAt] over a run are the seconds of its clock readings.  So
    over a session (construction, then any operations) whose clock readings
    never go back by a second, [lastUpdatedAt] never decreases; the same
    holds from any instance whose [lastUpdatedAt] is not ahead of the
    clock. *)
Theorem lastUpdatedAt_follows_clock :
  (forall Date_now op c c',
     step Date_now op c = Some c' -> c'.(lastUpdatedAt) = now Date_now) /\
  (forall m ops c,
     wf m c -> Forall (fun p => epoch_second (now (fst p))) ops ->
     run ops c = map (fun p => now (fst p)) ops) /\
  (forall ops c,
     clock_monotone c.(lastUpdatedAt) ops ->
     nondecreasing c.(lastUpdatedAt) (run ops c)) /\
  (forall host_max arg Date_now ops,
     clock_monotone (now Date_now) ops ->
     nondecreasing (now Date_now) (session host_max arg Date_now ops)).
Proof.
  split; [exact step_lastUpdatedAt|].
  split; [intros; now apply (run_complete m)|].
  split; [intros; now apply run_nondecreasing|].
  intros host_max arg Date_now ops H. unfold session, create, constructor.
  destruct (new_Uint32Array host_max _) as [a|e]; [|exact I].
  cbn [nondecreasing lastUpdatedAt]. split; [lia|].
  now apply (run_nondecreasing ops
               {| maxDuration := match arg with Undefined => Int 60 | Num n => n end;
                  data := fill a (Int 0) Undefined Undefined;
                  lastUpdatedAt := now Date_now |}).
Qed.

Lemma lastUpdatedAt_follows_clock_witness :
  session 4294967295 (Num (Int 4)) 10000
          [(10500, Increment); (12000, GetCount Undefined); (12999, Increment)]
    = [10; 10; 12; 12] /\
  nondecreasing (now 10000)
    (session 4294967295 (Num (Int 4)) 10000
             [(10500, Increment); (12000, GetCount Undefined); (12999, Increment)]).
Proof.
  split; [reflexivity|].
  apply (proj2 (proj2 (proj2 lastUpdatedAt_follows_clock))).
  cbn [clock_monotone]. repeat split; vm_compute; discriminate.
Defined.

(** C3, as stated, fails: when the clock goes back, [lastUpdatedAt] goes
    back with it.  An instance created at second 10 and incremented at a
    clock reading of second 5, then queried at second 3, has
    [lastUpdatedAt] 10, then 5, then 3. *)
Lemma lastUpdatedAt_decreases_when_clock_regresses :
  session 4294967295 (Num (Int 4)) 10000 [(5000, Increment); (3000, GetCount Undefined)]
    = [10; 5; 3] /\
  ~ nondecreasing 10
      (session 4294967295 (Num (Int 4)) 10000
               [(5000, Increment); (3000, GetCount Undefined)]).
Proof.
  split; [reflexivity|].
  intros H. vm_compute in H. destruct H as [_ [H _]]. apply H. reflexivity.
Qed.

(* ================================================================== *)
(** * Construction *)
(* ================================================================== *)

Lemma fill_all a v : fill a v Undefined Undefined = repeat (ToUint32 v) (length a).
Proof.
  unfold fill. cbn [relative]. rewrite Z.sub_0_r, Nat2Z.id.
  destruct (Z.ltb_spec 0 (Z.of_nat (length a))) as [H|H].
  - rewrite skipn_all. cbn [Z.to_nat firstn]. now rewrite app_nil_r.
  - destruct a; [reflexivity|]. cbn [length] in H. lia.
Qed.

(** The constructor throws exactly when the array cannot be allocated;
    otherwise the instance keeps the argument as it was given and has as
    many zeroed buckets as the integer part of the argument. *)
Lemma constructor_cases host_max n Date_now :
  constructor host_max (Num n) Date_now =
    match ToIntegerOrInfinity n with
    | Int z =>
        if (0 <=? z) && (z <=? MAX_SAFE_INTEGER) && (z <=? host_max)
        then Normal {| maxDuration := n;
                       data := repeat 0 (Z.to_nat z);
                       lastUpdatedAt := now Date_now |}
        else Throw RangeError
    | _ => Throw RangeError
    end.
Proof.
  unfold constructor, new_Uint32Array.
  destruct (ToIntegerOrInfinity n) as [| | |z|q]; try reflexivity.
  destruct ((0 <=? z) && (z <=? MAX_SAFE_INTEGER) && (z <=? host_max)); [|reflexivity].
  now rewrite fill_all, repeat_length.
Qed.

(** C2, as stated, fails: [create(0)] and [create(2.5)] do not throw.  The
    first returns an instance with no bucket, the second an instance whose
    [maxDuration] is 2.5 with two buckets. *)
Lemma create_accepts_zero_and_fractions :
  create 4294967295 (Num (Int 0)) 10000
    = Normal {| maxDuration := Int 0; data := []; lastUpdatedAt := 10 |} /\
  create 4294967295 (Num (Frac (5 # 2))) 10000
    = Normal {| maxDuration := Frac (5 # 2); data := [0; 0]; lastUpdatedAt := 10 |}.
Proof. split; reflexivity. Qed.

(** C2, as the code has it: the only check at construction is the one
    [new Uint32Array] makes on its length.  [create] throws a [RangeError]
    for a negative integer, for a fraction whose integer part is negative,
    for an infinity and for a length above what the host allocates.  It
    accepts 0, [NaN] and every fraction whose integer part is a length the
    host allocates: the instance then keeps the argument as [maxDuration]
    and has as many buckets as its integer part.  Without an argument
    [maxDuration] is 60. *)
Theorem create_checks_array_length_only (host_max Date_now : Z) :
  let limit := Z.min host_max MAX_SAFE_INTEGER in
  (forall z, z < 0 -> create host_max (Num (Int z)) Date_now = Throw RangeError) /\
  (forall q, Qtrunc q < 0 -> create host_max (Num (Frac q)) Date_now = Throw RangeError) /\
  create host_max (Num PInf) Date_now = Throw RangeError /\
  create host_max (Num NInf) Date_now = Throw RangeError /\
  (forall z, limit < z -> create host_max (Num (Int z)) Date_now = Throw RangeError) /\
  (forall z, 0 <= z <= limit ->
     create host_max (Num (Int z)) Date_now
       = Normal {| maxDuration := Int z;
                   data := repeat 0 (Z.to_nat z);
                   lastUpdatedAt := now Date_now |}) /\
  (forall q, 0 <= Qtrunc q <= limit ->
     create host_max (Num (Frac q)) Date_now
       = Normal {| maxDuration := Frac q;
                   data := repeat 0 (Z.to_nat (Qtrunc q));
                   lastUpdatedAt := now Date_now |}) /\
  (0 <= host_max ->
     create host_max (Num NaN) Date_now
       = Normal {| maxDuration := NaN; data := []; lastUpdatedAt := now Date_now |}) /\
  (60 <= host_max ->
     create host_max Undefined Date_now
       = Normal {| maxDuration := Int 60;
                   data := repeat 0 60;
                   lastUpdatedAt := now Date_now |}).
Proof.
  intros limit. unfold create, limit, MAX_SAFE_INTEGER.
  change (constructor host_max Undefined Date_now)
    with (constructor host_max (Num (Int 60)) Date_now).
  repeat split; intros; rewrite constructor_cases; cbn [ToIntegerOrInfinity];
    try reflexivity; unfold MAX_SAFE_INTEGER;
    repeat match goal with
           | |- context [?a <=? ?b] => destruct (Z.leb_spec a b)
           end; cbn [andb]; try reflexivity; lia.
Qed.

Lemma create_checks_array_length_only_witness :
  create 4294967295 (Num (Int (-1))) 10000 = Throw RangeError /\
  create 4294967295 (Num (Int 0)) 10000
    = Normal {| maxDuration := Int 0;
                data := repeat 0 (Z.to_nat 0);
                lastUpdatedAt := now 10000 |} /\
  create 4294967295 (Num (Frac (5 # 2))) 10000
    = Normal {| maxDuration := Frac (5 # 2);
                data := repeat 0 (Z.to_nat (Qtrunc (5 # 2)));
                lastUpdatedAt := now 10000 |}.
Proof.
  pose proof (create_checks_array_length_only 4294967295 10000)
    as [Hneg [_ [_ [_ [_ [Hint [Hfrac _]]]]]]].
  split; [|split].
  - apply Hneg. lia.
  - apply Hint. vm_compute. split; discriminate.
  - apply Hfrac. vm_compute. split; discriminate.
Defined.

(* ================================================================== *)
(** * The behavioural tests of the repository, on the model *)
(* ================================================================== *)

(** "must create an instance with the default maxDuration". *)
Example test_default_maxDuration :
  exists c, create 4294967295 Undefined 10000 = Normal c /\
            c.(maxDuration) = Int 60 /\ length c.(data) = 60%nat /\
            c.(lastUpdatedAt) = 10.
Proof. eexists. repeat split. Qed.

Example test_create_4 : create 4294967295 (Num (Int 4)) 10000 = Normal fresh.
Proof. reflexivity. Qed.

(** "must return false when incrementing causes an overflow" and "must not
    increment count when it causes an overflow". *)
Example test_overflow : increment 10000 saturated = (false, saturated).
Proof. reflexivity. Qed.

(** "must return true when incrementing without an overflow" and "must
    correctly increment the counter". *)
Example test_increment :
  fst (increment 10000 fresh) = true /\
  bucket (snd (increment 10000 fresh)).(data) (now 10000 mod 4) = 1.
Proof. split; reflexivity. Qed.

(** "must reset a prior entry to 0 before reuse": one increment a second
    for five seconds. *)
Example test_reuse :
  (increments [11000; 12000; 13000; 14000; 15000] fresh).(data) = [1; 1; 1; 1].
Proof. reflexivity. Qed.

(** "must reset holes to zero correctly": one increment every other
    second. *)
Example test_holes :
  (increments [12000; 14000; 16000; 18000] fresh).(data) = [1; 0; 1; 0].
Proof. reflexivity. Qed.

(** "must reset counts after maxDuration seconds of inactivity". *)
Example test_inactivity : (snd (increment 14000 ones)).(data) = [0; 0; 1; 0].
Proof. reflexivity. Qed.

(** The four tests of [getCount], after one increment a second for five
    seconds. *)
Example test_getCount :
  let c := increments [11000; 12000; 13000; 14000; 15000] fresh in
  getCount 15000 Undefined c = Some (Int 4, c) /\
  getCount 15000 (Num (Int 3)) c = Some (Int 3, c) /\
  getCount 15000 (Num (Int 100)) c = getCount 15000 Undefined c /\
  getCount 15000 (Num (Int 0)) c = getCount 15000 (Num (Int 1)) c.
Proof. repeat split. Qed.

(** Before the epoch [%] has the sign of the clock reading, and the index
    [_getIndex] returns designates no bucket. *)
Example before_the_epoch :
  fst (_getIndex (-3000) {| maxDuration := Int 4; data := [1; 2; 3; 4];
                            lastUpdatedAt := -5 |}) = Int (-3).
Proof. reflexivity. Qed.

(** A fractional duration reads between the buckets: the count is [NaN]
    and the answer -1. *)
Example fractional_duration :
  getCount 10000 (Num (Frac (5 # 2))) four = Some (Int (-1), four).
Proof. reflexivity. Qed.

(* ================================================================== *)
(** * Beyond the specification: what the buffer advance means *)
(* ================================================================== *)

(** The policy of [_getIndex] in one formula: a bucket is zeroed when the
    first second of its own after [last] comes before the elapsed time is
    over. *)
Lemma policy_steps m last t i :
  0 < m -> last <= t -> 0 <= i < m ->
  policy m last t i = ((i - (last + 1)) mod m <? t - last).
Proof.
  intros Hm Hle Hi. unfold policy.
  pose proof (Z.mod_pos_bound (i - (last + 1)) m Hm) as Hk.
  destruct (Z.eqb_spec (t - last) 1) as [E1|E1].
  - rewrite E1. replace (last + 1) with t in * by lia.
    destruct (Z.eqb_spec i (t mod m)) as [Heq|Hne], (Z.ltb_spec ((i - t) mod m) 1) as [H1|H1];
      auto.
    + exfalso. rewrite Heq, Zminus_mod_idemp_l, Z.sub_diag, Z.mod_0_l in H1 by lia. lia.
    + exfalso. apply Hne. assert (H0 : (i - t) mod m = 0) by lia.
      rewrite <- (Z.mod_small i m) by lia.
      replace i with (i - t + t) at 1 by lia.
      now rewrite <- Z.add_mod_idemp_l, H0 by lia.
  - destruct (Z.leb_spec m (t - last)) as [Hge|Hlt].
    + destruct (Z.ltb_spec ((i - (last + 1)) mod m) (t - last)); [reflexivity|lia].
    + destruct (Z.ltb_spec 1 (t - last)) as [Hgt|Hle1].
      * pose proof (Z.mod_pos_bound (last + 1) m Hm) as Hs.
        pose proof (Z.mod_pos_bound (t + 1) m Hm) as He.
        rewrite <- circular_range_segments
          by (first [assumption | apply range_ends_differ; [assumption|lia]]).
        unfold circular_range.
        rewrite Zminus_mod_idemp_r, <- Zminus_mod.
        replace (t + 1 - (last + 1)) with (t - last) by lia.
        now rewrite (Z.mod_small (t - last)) by lia.
      * destruct (Z.ltb_spec ((i - (last + 1)) mod m) (t - last)); [lia|reflexivity].
Qed.

Lemma steps_aged_out m last t i :
  0 < m -> 0 <= i < m ->
  (i - (last + 1)) mod m < t - last <-> aged_out m last t i.
Proof.
  intros Hm Hi. pose proof (Z.mod_pos_bound (i - (last + 1)) m Hm) as Hk. split.
  - intros H. exists (last + 1 + (i - (last + 1)) mod m). split; [lia|].
    rewrite Z.add_mod_idemp_r by lia.
    replace (last + 1 + (i - (last + 1))) with i by lia.
    apply Z.mod_small. lia.
  - intros [u [Hu <-]]. rewrite Zminus_mod_idemp_l.
    pose proof (Z.mod_le (u - (last + 1)) m ltac:(lia) Hm). lia.
Qed.

(** X3: on an instance of the data model and with a clock that did not go
    back, [_getIndex] zeroes a bucket exactly when a second of that bucket
    lies after the last access, up to now; every other bucket keeps its
    value. *)
Theorem getIndex_zeroes_aged_out (m Date_now : Z) (c : Counter.t) (i : Z) :
  wf m c ->
  epoch_second (now Date_now) ->
  c.(lastUpdatedAt) <= now Date_now ->
  0 <= i < m ->
  let after := (snd (_getIndex Date_now c)).(data) in
  (aged_out m c.(lastUpdatedAt) (now Date_now) i -> bucket after i = 0) /\
  (~ aged_out m c.(lastUpdatedAt) (now Date_now) i ->
   bucket after i = bucket c.(data) i).
Proof.
  intros Hwf Ht Hclock Hi after. pose proof Hwf as [_ [Hm _] _ _ _].
  unfold after. rewrite (getIndex_bucket m) by assumption.
  rewrite policy_steps by assumption.
  destruct (Z.ltb_spec ((i - (lastUpdatedAt c + 1)) mod m) (now Date_now - lastUpdatedAt c))
    as [H|H]; split; intros Ha; auto.
  - exfalso. apply Ha. now apply steps_aged_out.
  - apply steps_aged_out in Ha; [lia|assumption|assumption].
Qed.

Lemma getIndex_zeroes_aged_out_witness :
  bucket (snd (_getIndex 12999 four)).(data) 0 = 0 /\
  bucket (snd (_getIndex 12999 four)).(data) 1 = bucket four.(data) 1.
Proof.
  assert (Hwf : wf 4 four) by solve_wf.
  assert (Ht : epoch_second (now 12999)) by (vm_compute; split; discriminate).
  assert (Hclock : four.(lastUpdatedAt) <= now 12999) by (vm_compute; discriminate).
  split.
  - apply (getIndex_zeroes_aged_out 4 12999 four 0 Hwf Ht Hclock); [lia|].
    exists 12. split; [vm_compute; split; [reflexivity|discriminate]|reflexivity].
  - apply (getIndex_zeroes_aged_out 4 12999 four 1 Hwf Ht Hclock); [lia|].
    intros [u [Hu Hmod]]. change (lastUpdatedAt four) with 10 in Hu.
    change (now 12999) with 12 in Hu.
    assert (Hcases : u = 11 \/ u = 12) by lia.
    destruct Hcases as [-> | ->]; vm_compute in Hmod; discriminate Hmod.
Defined.

(* ================================================================== *)
(** * Beyond the specification: the counter as a log of events *)
(* ================================================================== *)

Lemma events_succ log t n :
  events log t (Z.of_nat (S n)) = events log t (Z.of_nat n) + log (t - Z.of_nat n).
Proof.
  unfold events. rewrite !Nat2Z.id, seq_S, !map_app. simpl. apply sum_snoc.
Qed.

(** The buckets of a window are the events of its seconds. *)
Lemma window_sum_events a m t log : forall n,
  0 < m -> Z.of_nat n <= m ->
  (forall u, t - m < u <= t -> bucket a (u mod m) = log u) ->
  window_sum a m (t mod m) (Z.of_nat n) = events log t (Z.of_nat n).
Proof.
  induction n as [|n IH]; intros Hm Hn Hlog; [reflexivity|].
  rewrite window_sum_succ, events_succ, IH by (assumption || lia).
  rewrite Zminus_mod_idemp_l, Hlog by lia. reflexivity.
Qed.

(** The buffer advance forgets nothing of the last [m] seconds. *)
Lemma getIndex_tracks m Date_now c log :
  tracks m c log -> epoch_second (now Date_now) ->
  c.(lastUpdatedAt) <= now Date_now ->
  tracks m (snd (_getIndex Date_now c)) log.
Proof.
  intros [Hwf [Hin Hout]] Ht Hclock. pose proof Hwf as [_ [Hm _] _ _ _].
  split; [now apply getIndex_wf|]. rewrite getIndex_lastUpdatedAt.
  split; [|intros u Hu; apply Hout; lia].
  intros u Hu. pose proof (Z.mod_pos_bound u m Hm) as Hi.
  rewrite (getIndex_bucket m), policy_steps by assumption.
  rewrite Zminus_mod_idemp_l.
  destruct (Z.le_gt_cases u (lastUpdatedAt c)) as [Hold|Hnew].
  - replace ((u - (lastUpdatedAt c + 1)) mod m) with (u - (lastUpdatedAt c + 1) + m)
      by (apply Z.mod_unique with (q := -1); lia).
    destruct (Z.ltb_spec (u - (lastUpdatedAt c + 1) + m) (now Date_now - lastUpdatedAt c));
      [lia|]. apply Hin. lia.
  - pose proof (Z.mod_le (u - (lastUpdatedAt c + 1)) m ltac:(lia) Hm).
    destruct (Z.ltb_spec ((u - (lastUpdatedAt c + 1)) mod m)
                         (now Date_now - lastUpdatedAt c)); [|lia].
    symmetry. apply Hout. lia.
Qed.

Lemma mod_differ m u t : 0 < m -> t - m < u < t -> u mod m <> t mod m.
Proof.
  intros Hm Hu Heq. apply mod_eq_multiple in Heq as [k Hk]; [|assumption].
  assert (0 < k) by nia. nia.
Qed.

(** [increment] on an instance that tracks a log: the event is recorded
    unless its second is full. *)
Lemma increment_tracks m Date_now c log :
  tracks m c log -> epoch_second (now Date_now) ->
  c.(lastUpdatedAt) <= now Date_now ->
  fst (increment Date_now c) = negb (log (now Date_now) =? UINT32_MAX) /\
  tracks m (snd (increment Date_now c))
         (if log (now Date_now) =? UINT32_MAX then log else record log (now Date_now)) /\
  (snd (increment Date_now c)).(lastUpdatedAt) = now Date_now.
Proof.
  intros Htr Ht Hclock.
  pose proof (getIndex_tracks m Date_now c log Htr Ht Hclock) as [Hwf1 [Hin Hout]].
  destruct Htr as [Hwf _]. pose proof Hwf as [_ [Hm _] _ _ _].
  pose proof (increment_wf m Date_now c Hwf Ht) as Hwf2.
  pose proof (increment_lastUpdatedAt Date_now c) as Hlast.
  split; [|split; [|assumption]].
  - rewrite (increment_wf_cases m) by assumption.
    rewrite Hin by (rewrite getIndex_lastUpdatedAt; lia).
    now destruct (log (now Date_now) =? UINT32_MAX).
  - rewrite getIndex_lastUpdatedAt in Hin, Hout.
    split; [assumption|]. rewrite Hlast.
    revert Hwf2. rewrite (increment_wf_cases m) by assumption.
    rewrite (Hin (now Date_now)) by lia.
    pose proof (Z.mod_pos_bound (now Date_now) m Hm) as Hidx.
    pose proof Hwf1 as [_ _ Hlen _ _].
    destruct (Z.eqb_spec (log (now Date_now)) UINT32_MAX) as [E|E]; intros Hwf2;
      cbn [snd data].
    + split; assumption.
    + split.
      * intros u Hu. unfold record. destruct (Z.eqb_spec u (now Date_now)) as [->|Hne].
        -- apply bucket_update_eq. lia.
        -- pose proof (Z.mod_pos_bound u m Hm).
           rewrite bucket_update_ne by (try lia; apply mod_differ; lia).
           apply Hin. lia.
      * intros u Hu. unfold record. destruct (Z.eqb_spec u (now Date_now)); [lia|].
        apply Hout. lia.
Qed.

(** A duration that normalises to an integer normalises to a number of
    seconds the buffer holds. *)
Lemma seconds_range m duration d :
  0 < m -> seconds m duration = Some d ->
  clamp (Int m) duration = Int d /\ 1 <= d <= m.
Proof.
  intros Hm. unfold seconds.
  destruct (clamp (Int m) duration) as [| | |z|q] eqn:E; try discriminate.
  intros [= ->]. split; [reflexivity|]. revert E. unfold clamp.
  destruct (isNaN duration); [intros [= <-]; lia|].
  destruct (gt (ToNumber duration) (Int m)) eqn:Hgt; [intros [= <-]; lia|].
  destruct (lt (ToNumber duration) (Int 1)) eqn:Hlt; [intros [= <-]; lia|].
  intros E. rewrite E in Hgt, Hlt. rewrite gt_Int in Hgt. rewrite lt_Int in Hlt.
  destruct (Z.ltb_spec m d), (Z.ltb_spec d 1); try discriminate. lia.
Qed.

(** [getCount] on an instance that tracks a log: the events of the last
    seconds. *)
Lemma getCount_tracks m Date_now duration c log d :
  tracks m c log -> epoch_second (now Date_now) ->
  c.(lastUpdatedAt) <= now Date_now ->
  seconds m duration = Some d ->
  let total := events log (now Date_now) d in
  getCount Date_now duration c
    = Some (if total <=? MAX_SAFE_INTEGER then Int total else Int (-1),
            snd (_getIndex Date_now c)).
Proof.
  intros Htr Ht Hclock Hd total.
  pose proof (getIndex_tracks m Date_now c log Htr Ht Hclock) as [_ [Hin _]].
  destruct Htr as [Hwf _]. pose proof Hwf as [_ [Hm _] _ _ _].
  destruct (seconds_range m duration d Hm Hd) as [Hclamp Hrange].
  rewrite (getCount_wf_cases m Date_now duration c d Hwf Ht Hclamp Hrange).
  rewrite getIndex_lastUpdatedAt in Hin.
  rewrite <- (Z2Nat.id d) by lia.
  rewrite (window_sum_events _ m (now Date_now) log) by (assumption || lia).
  rewrite Z2Nat.id by lia. reflexivity.
Qed.

Lemma events_empty t d : events empty_log t d = 0.
Proof.
  unfold events. induction (seq 0 (Z.to_nat d)) as [|j l IH]; [reflexivity|].
  cbn [map fold_right]. rewrite IH. reflexivity.
Qed.

Lemma bucket_repeat n i : bucket (repeat 0 n) i = 0.
Proof.
  unfold bucket. destruct (Nat.lt_ge_cases (Z.to_nat i) n) as [H|H].
  - now apply nth_repeat_lt.
  - apply nth_overflow. now rewrite repeat_length.
Qed.

Lemma Forall_uint32_repeat n : Forall uint32 (repeat 0 n).
Proof.
  apply Forall_forall. intros x Hx. apply repeat_spec in Hx. subst.
  unfold uint32, UINT32_MAX. lia.
Qed.

(** A buffer of zeroes tracks the empty log. *)
Lemma zeroes_track m t :
  0 < m <= MAX_SAFE_INTEGER -> epoch_second t ->
  tracks m {| maxDuration := Int m; data := repeat 0 (Z.to_nat m); lastUpdatedAt := t |}
         empty_log.
Proof.
  intros Hm Ht. split; [|split]; cbn [data lastUpdatedAt].
  - constructor; cbn [maxDuration data lastUpdatedAt]; auto.
    + rewrite repeat_length. lia.
    + apply Forall_uint32_repeat.
  - intros u _. apply bucket_repeat.
  - reflexivity.
Qed.

Lemma seconds_absent m : seconds m Undefined = Some m.
Proof. reflexivity. Qed.

(** X1: [create(m)] with a positive integer [m] the host can allocate
    returns an instance of the data model with [m] buckets, all zero, last
    accessed at the second of creation; and a count taken on it at any
    later clock reading, over any whole number of seconds, is 0. *)
Theorem create_returns_empty_counter (host_max m Date_now : Z) :
  0 < m <= Z.min host_max MAX_SAFE_INTEGER ->
  epoch_second (now Date_now) ->
  exists c,
    create host_max (Num (Int m)) Date_now = Normal c /\
    wf m c /\
    c.(lastUpdatedAt) = now Date_now /\
    (forall i, bucket c.(data) i = 0) /\
    (forall Date_now' duration d,
       epoch_second (now Date_now') -> now Date_now <= now Date_now' ->
       seconds m duration = Some d ->
       getCount Date_now' duration c = Some (Int 0, snd (_getIndex Date_now' c))).
Proof.
  intros Hm Ht.
  pose proof (zeroes_track m (now Date_now) ltac:(lia) Ht) as Htr.
  eexists. split; [|split; [exact (proj1 Htr)|split; [reflexivity|split]]].
  - unfold create. rewrite constructor_cases. cbn [ToIntegerOrInfinity].
    destruct (Z.leb_spec 0 m), (Z.leb_spec m MAX_SAFE_INTEGER), (Z.leb_spec m host_max);
      try lia. reflexivity.
  - intros i. apply bucket_repeat.
  - intros Date_now' duration d Ht' Hlater Hd.
    rewrite (getCount_tracks m Date_now' duration _ empty_log d Htr Ht' Hlater Hd).
    now rewrite events_empty.
Qed.

Lemma create_returns_empty_counter_witness :
  exists c,
    create 4294967295 (Num (Int 4)) 10000 = Normal c /\
    wf 4 c /\
    c.(lastUpdatedAt) = now 10000 /\
    (forall i, bucket c.(data) i = 0) /\
    (forall Date_now' duration d,
       epoch_second (now Date_now') -> now 10000 <= now Date_now' ->
       seconds 4 duration = Some d ->
       getCount Date_now' duration c = Some (Int 0, snd (_getIndex Date_now' c))).
Proof.
  apply (create_returns_empty_counter 4294967295 4 10000).
  - vm_compute. split; [reflexivity|discriminate].
  - vm_compute. split; discriminate.
Defined.

(** X4: an instance that tracks a log of events answers as the log does,
    over any list of operations whose clock readings never go back and
    whose durations are whole seconds: [increment] answers [true] and
    records an event unless the current second already holds [2^32 - 1] of
    them, and [getCount] answers the number of events of the last seconds,
    or -1 past [2^53 - 1]. *)
Theorem counter_answers_as_its_log (m : Z) (ops : list (Z * Op)) :
  forall (c : Counter.t) (log : Log),
    tracks m c log ->
    clock_monotone c.(lastUpdatedAt) ops ->
    Forall (fun p => epoch_second (now (fst p))) ops ->
    whole_seconds m ops ->
    answers ops c = expected m ops log.
Proof.
  induction ops as [|[Date_now op] rest IH]; intros c log Htr Hclock Hepoch Hwhole;
    [reflexivity|].
  destruct Hclock as [Hle Hclock]. inversion Hepoch as [|? ? Ht Hrest]; subst.
  cbn [fst] in Ht. destruct op as [|duration]; cbn [answers expected whole_seconds] in *.
  - destruct (increment_tracks m Date_now c log Htr Ht Hle) as [Hok [Htr' Hlast]].
    rewrite Hok.
    destruct (log (now Date_now) =? UINT32_MAX); cbn [negb]; f_equal;
      apply IH; auto; now rewrite Hlast.
  - destruct Hwhole as [Hd Hwhole].
    destruct (seconds m duration) as [d|] eqn:Hs; [|contradiction].
    rewrite (getCount_tracks m Date_now duration c log d Htr Ht Hle Hs).
    f_equal. apply IH; auto;
      first [now apply getIndex_tracks | now rewrite getIndex_lastUpdatedAt].
Qed.

Lemma counter_answers_as_its_log_witness :
  answers [(11000, Increment); (11500, Increment); (12000, GetCount Undefined);
           (13000, GetCount (Num (Int 1))); (13000, Increment);
           (16000, GetCount (Num (Int 100)))] fresh
  = [Incremented true; Incremented true; Counted (Int 2); Counted (Int 0);
     Incremented true; Counted (Int 1)].
Proof.
  rewrite (counter_answers_as_its_log 4 _ fresh empty_log).
  - reflexivity.
  - apply (zeroes_track 4 10); vm_compute; split; (reflexivity || discriminate).
  - cbn [clock_monotone]. repeat split; vm_compute; discriminate.
  - repeat constructor; vm_compute; discriminate.
  - cbn [whole_seconds]. repeat split; discriminate.
Defined.

(* ================================================================== *)
(** * Beyond the specification: edges of the operations *)
(* ================================================================== *)

Lemma increment_shape Date_now c :
  (snd (increment Date_now c)).(maxDuration) = c.(maxDuration) /\
  length (snd (increment Date_now c)).(data) = length c.(data) /\
  (Forall uint32 c.(data) -> Forall uint32 (snd (increment Date_now c)).(data)).
Proof.
  unfold increment.
  pose proof (getIndex_maxDuration Date_now c) as Hmax.
  pose proof (getIndex_length Date_now c) as Hlen.
  pose proof (getIndex_uint32 Date_now c) as Hu.
  destruct (_getIndex Date_now c) as [index c1]. cbn [snd] in *.
  destruct (strict_eq_value _ _); cbn [snd maxDuration data];
    rewrite ?length_set; repeat split; auto using Forall_set.
Qed.

(** X2: no operation resizes or retypes an instance, whatever the
    instance and the clock: after [increment] or [getCount], [maxDuration]
    and the number of buckets are what they were and the buckets still hold
    32-bit values.  On an instance of the data model every operation
    returns and leaves an instance of the data model. *)
Theorem operations_keep_the_shape (Date_now : Z) (op : Op) (c : Counter.t) :
  (forall c', step Date_now op c = Some c' ->
     c'.(maxDuration) = c.(maxDuration) /\
     length c'.(data) = length c.(data) /\
     (Forall uint32 c.(data) -> Forall uint32 c'.(data))) /\
  (forall m, wf m c -> epoch_second (now Date_now) ->
     exists c', step Date_now op c = Some c' /\ wf m c').
Proof.
  split; [|intros m Hwf Ht; now apply step_returns].
  intros c'. destruct op as [|duration]; cbn [step].
  - intros [= <-]. apply increment_shape.
  - destruct (getCount Date_now duration c) as [[r c1]|] eqn:E; [|discriminate].
    intros [= <-]. apply getCount_state in E. subst c1.
    split; [apply getIndex_maxDuration|].
    split; [apply getIndex_length|apply getIndex_uint32].
Qed.

Lemma operations_keep_the_shape_witness :
  exists c', step 12000 (GetCount (Num (Frac (5 # 2)))) four = Some c' /\ wf 4 c'.
Proof.
  apply (operations_keep_the_shape 12000 (GetCount (Num (Frac (5 # 2)))) four).
  - solve_wf.
  - vm_compute. split; discriminate.
Defined.

(** The bucket of the current second is zeroed by the first access of
    that second. *)
Lemma getIndex_new_second m Date_now c :
  wf m c -> epoch_second (now Date_now) -> c.(lastUpdatedAt) < now Date_now ->
  bucket (snd (_getIndex Date_now c)).(data) (now Date_now mod m) = 0.
Proof.
  intros Hwf Ht Hnew. pose proof Hwf as [_ [Hm _] _ _ _].
  pose proof (Z.mod_pos_bound (now Date_now) m Hm) as Hidx.
  rewrite (getIndex_bucket m), policy_steps by (assumption || lia).
  rewrite Zminus_mod_idemp_l.
  pose proof (Z.mod_le (now Date_now - (lastUpdatedAt c + 1)) m ltac:(lia) Hm).
  destruct (Z.ltb_spec ((now Date_now - (lastUpdatedAt c + 1)) mod m)
                       (now Date_now - lastUpdatedAt c)); [reflexivity|lia].
Qed.

(** X5: the first [increment] of a new second always succeeds and leaves
    exactly 1 in the bucket of that second, whatever the bucket held: an
    overflow can only come from increments within one second. *)
Theorem first_increment_of_a_second (m Date_now : Z) (c : Counter.t) :
  wf m c ->
  epoch_second (now Date_now) ->
  c.(lastUpdatedAt) < now Date_now ->
  fst (increment Date_now c) = true /\
  bucket (snd (increment Date_now c)).(data) (now Date_now mod m) = 1.
Proof.
  intros Hwf Ht Hnew. pose proof Hwf as [_ [Hm _] Hlen _ _].
  pose proof (Z.mod_pos_bound (now Date_now) m Hm) as Hidx.
  rewrite (increment_wf_cases m) by assumption.
  rewrite (getIndex_new_second m) by assumption.
  change (0 =? UINT32_MAX) with false. cbn [fst snd data]. split; [reflexivity|].
  apply bucket_update_eq. rewrite getIndex_length. lia.
Qed.

Lemma first_increment_of_a_second_witness :
  fst (increment 11000 saturated) = true /\
  bucket (snd (increment 11000 saturated)).(data) (now 11000 mod 4) = 1.
Proof.
  apply (first_increment_of_a_second 4 11000 saturated).
  - solve_wf.
  - vm_compute. split; discriminate.
  - reflexivity.
Defined.

(** Within the second of the last access [_getIndex] returns the
    instance as it is. *)
Lemma getIndex_same_instance m Date_now c :
  wf m c -> now Date_now = c.(lastUpdatedAt) -> snd (_getIndex Date_now c) = c.
Proof.
  intros Hwf Hsame.
  pose proof (getIndex_same_second m Date_now c Hwf Hsame) as Hdata.
  pose proof (getIndex_maxDuration Date_now c) as Hmax.
  pose proof (getIndex_lastUpdatedAt Date_now c) as Hlast.
  destruct (snd (_getIndex Date_now c)) as [x y z].
  cbn [maxDuration data lastUpdatedAt] in *. subst x y z.
  rewrite Hsame. apply t_eta.
Qed.

(** Increments within the second of the last access: the bucket climbs to
    the 32-bit maximum and stays there. *)
Lemma increments_same_second m Date_now : forall n c,
  wf m c -> epoch_second (now Date_now) -> now Date_now = c.(lastUpdatedAt) ->
  increments (repeat Date_now n) c =
    {| maxDuration := c.(maxDuration);
       data := update (Z.to_nat (now Date_now mod m))
                      (Z.min (bucket c.(data) (now Date_now mod m) + Z.of_nat n) UINT32_MAX)
                      c.(data);
       lastUpdatedAt := c.(lastUpdatedAt) |}.
Proof.
  induction n as [|n IH]; intros c Hwf Ht Hsame.
  - pose proof Hwf as [_ _ _ Hu _].
    pose proof (Forall_nth_uint32 (Z.to_nat (now Date_now mod m)) _ Hu) as Hv.
    unfold uint32 in Hv. cbn [repeat increments fold_left]. unfold bucket.
    rewrite Z.add_0_r, Z.min_l by lia. now rewrite update_nth, t_eta.
  - cbn [repeat]. unfold increments. cbn [fold_left].
    fold (increments (repeat Date_now n) (snd (increment Date_now c))).
    pose proof (increment_wf m Date_now c Hwf Ht) as Hwf'.
    pose proof (increment_lastUpdatedAt Date_now c) as Hlast.
    rewrite IH by (auto; congruence). clear IH.
    revert Hwf' Hlast. rewrite (increment_wf_cases m) by assumption.
    rewrite (getIndex_same_instance m) by assumption.
    pose proof Hwf as [_ [Hm _] Hlen Hu _].
    pose proof (Z.mod_pos_bound (now Date_now) m Hm) as Hidx.
    pose proof (Forall_nth_uint32 (Z.to_nat (now Date_now mod m)) _ Hu) as Hv.
    fold (bucket (data c) (now Date_now mod m)) in Hv. unfold uint32 in Hv.
    destruct (Z.eqb_spec (bucket (data c) (now Date_now mod m)) UINT32_MAX) as [E|E];
      intros _ _; cbn [snd maxDuration data lastUpdatedAt].
    + f_equal. f_equal. lia.
    + rewrite bucket_update_eq, update_update by lia. f_equal. f_equal. lia.
Qed.

(** X6: [n >= 1] increments at one clock reading leave
    [min (v + n, 2^32 - 1)] in the bucket of the current second, where [v]
    is what the bucket held after the buffer advance: the count is pegged
    at the 32-bit maximum.  The other buckets are as the advance left
    them. *)
Theorem increments_are_pegged (m Date_now : Z) (n : nat) (c : Counter.t) :
  wf m c ->
  epoch_second (now Date_now) ->
  let advanced := snd (_getIndex Date_now c) in
  let index := now Date_now mod m in
  (increments (repeat Date_now (S n)) c).(data) =
    update (Z.to_nat index)
           (Z.min (bucket advanced.(data) index + Z.of_nat (S n)) UINT32_MAX)
           advanced.(data).
Proof.
  intros Hwf Ht advanced index.
  pose proof (getIndex_wf m Date_now c Hwf Ht) as Hwf1. fold advanced in Hwf1.
  assert (Hsame : now Date_now = advanced.(lastUpdatedAt)) by reflexivity.
  pose proof (increments_same_second m Date_now (S n) advanced Hwf1 Ht Hsame) as H.
  cbn [repeat] in *. unfold increments in *. cbn [fold_left] in *.
  assert (Hfirst : increment Date_now advanced = increment Date_now c).
  { rewrite !(increment_wf_cases m) by assumption.
    now rewrite (getIndex_same_instance m Date_now advanced Hwf1 Hsame). }
  rewrite Hfirst in H. rewrite H. reflexivity.
Qed.

Lemma increments_are_pegged_witness :
  (increments (repeat 10500 (S 2)) saturated).(data) = saturated.(data) /\
  (increments (repeat 11000 (S 2)) four).(data) = [1; 2; 3; 3].
Proof.
  split.
  - rewrite (increments_are_pegged 4 10500 2 saturated).
    + reflexivity.
    + solve_wf.
    + vm_compute. split; discriminate.
  - rewrite (increments_are_pegged 4 11000 2 four).
    + reflexivity.
    + solve_wf.
    + vm_compute. split; discriminate.
Defined.

Lemma element_index_none i : element_index 0 i = None.
Proof.
  unfold element_index. destruct (integer_value i) as [z|]; [|reflexivity].
  destruct (Z.leb_spec 0 z), (Z.ltb_spec z (Z.of_nat 0)); cbn [andb]; auto. lia.
Qed.

Lemma getIndex_no_bucket Date_now c :
  c.(data) = [] ->
  snd (_getIndex Date_now c) =
    {| maxDuration := c.(maxDuration); data := []; lastUpdatedAt := now Date_now |}.
Proof.
  intros Hempty.
  pose proof (getIndex_maxDuration Date_now c) as Hmax.
  pose proof (getIndex_lastUpdatedAt Date_now c) as Hlast.
  pose proof (getIndex_length Date_now c) as Hlen.
  destruct (snd (_getIndex Date_now c)) as [x y z].
  cbn [maxDuration data lastUpdatedAt] in *. subst x z.
  rewrite Hempty in Hlen. destruct y; [reflexivity|discriminate].
Qed.

(** X7: on an instance without buckets, which [create(0)], [create(NaN)]
    and [create(0.5)] return, [increment] answers [true] at every clock
    reading and records nothing: only [lastUpdatedAt] changes.  With
    [maxDuration] 0, [getCount()] then answers 0. *)
Theorem increment_without_buckets (Date_now : Z) (c : Counter.t) :
  c.(data) = [] ->
  increment Date_now c =
    (true, {| maxDuration := c.(maxDuration); data := [];
              lastUpdatedAt := now Date_now |}) /\
  (c.(maxDuration) = Int 0 ->
   forall Date_now',
     getCount Date_now' Undefined (snd (increment Date_now c)) =
       Some (Int 0, {| maxDuration := Int 0; data := [];
                       lastUpdatedAt := now Date_now' |})).
Proof.
  intros Hempty.
  assert (Hinc : increment Date_now c =
                 (true, {| maxDuration := c.(maxDuration); data := [];
                           lastUpdatedAt := now Date_now |})).
  { rewrite increment_cases by (rewrite Hempty; constructor).
    rewrite (getIndex_no_bucket Date_now c Hempty). cbn [data length].
    now rewrite element_index_none. }
  split; [exact Hinc|].
  intros Hzero Date_now'. rewrite Hinc, Hzero. cbn [snd].
  unfold getCount.
  pose proof (getIndex_no_bucket Date_now'
                {| maxDuration := Int 0; data := []; lastUpdatedAt := now Date_now |}
                eq_refl) as Hstate.
  destruct (_getIndex Date_now' _) as [index c1]. cbn [snd] in Hstate. subst c1.
  reflexivity.
Qed.

Lemma increment_without_buckets_witness :
  increment 12000 empty =
    (true, {| maxDuration := Int 0; data := []; lastUpdatedAt := now 12000 |}) /\
  getCount 13000 Undefined (snd (increment 12000 empty)) =
    Some (Int 0, {| maxDuration := Int 0; data := []; lastUpdatedAt := now 13000 |}).
Proof.
  destruct (increment_without_buckets 12000 empty eq_refl) as [Hinc Hcount].
  split; [exact Hinc|]. apply Hcount. reflexivity.
Defined.

Lemma window_sum_zeroes a m index : forall n,
  (forall i, 0 <= i < m -> bucket a i = 0) -> 0 < m ->
  window_sum a m index (Z.of_nat n) = 0.
Proof.
  induction n as [|n IH]; intros Hzero Hm; [reflexivity|].
  rewrite window_sum_succ, IH, Hzero by (auto; apply Z.mod_pos_bound; lia).
  reflexivity.
Qed.

(** X8: counts expire.  On an instance of the data model, a [getCount]
    that comes [maxDuration] seconds or more after the last access answers
    0 for every integer duration, whatever the buckets held. *)
Theorem getCount_after_inactivity (m Date_now : Z) (c : Counter.t) (d : Z) :
  wf m c ->
  epoch_second (now Date_now) ->
  m <= now Date_now - c.(lastUpdatedAt) ->
  getCount Date_now (Num (Int d)) c = Some (Int 0, snd (_getIndex Date_now c)).
Proof.
  intros Hwf Ht Hidle. pose proof Hwf as [_ [Hm Hsafe] _ _ _].
  rewrite (getCount_wf_cases m Date_now _ c (clamped m d) Hwf Ht
             (clamp_Int m d Hm) (clamped_range m d Hm)).
  pose proof (clamped_range m d Hm) as Hd.
  rewrite <- (Z2Nat.id (clamped m d)) by lia.
  rewrite window_sum_zeroes; [reflexivity| |assumption].
  intros i Hi. rewrite (getIndex_bucket m) by assumption.
  now rewrite policy_all by assumption.
Qed.

Lemma getCount_after_inactivity_witness :
  getCount 14000 (Num (Int 3)) saturated = Some (Int 0, snd (_getIndex 14000 saturated)).
Proof.
  apply (getCount_after_inactivity 4 14000 saturated 3).
  - solve_wf.
  - vm_compute. split; discriminate.
  - vm_compute. discriminate.
Defined.

(** X9: when the clock went back, [_getIndex] zeroes nothing: it returns
    [now mod maxDuration] and only moves [lastUpdatedAt] back, so the next
    [increment] adds to whatever count the bucket of that earlier second
    still holds. *)
Theorem getIndex_when_clock_went_back (m Date_now : Z) (c : Counter.t) :
  wf m c ->
  epoch_second (now Date_now) ->
  now Date_now < c.(lastUpdatedAt) ->
  _getIndex Date_now c =
    (Int (now Date_now mod m),
     {| maxDuration := c.(maxDuration); data := c.(data);
        lastUpdatedAt := now Date_now |}) /\
  (bucket c.(data) (now Date_now mod m) < UINT32_MAX ->
   fst (increment Date_now c) = true /\
   bucket (snd (increment Date_now c)).(data) (now Date_now mod m)
     = bucket c.(data) (now Date_now mod m) + 1).
Proof.
  intros Hwf Ht Hback. pose proof Hwf as [Hmax [Hm Hsafe] Hlen _ Hl].
  pose proof (Z.mod_pos_bound (now Date_now) m Hm) as Hidx.
  assert (Hget : _getIndex Date_now c =
                 (Int (now Date_now mod m),
                  {| maxDuration := c.(maxDuration); data := c.(data);
                     lastUpdatedAt := now Date_now |})).
  { unfold _getIndex. rewrite Hmax. exact_arith.
    rewrite strict_eq_Int, ge_Int, gt_Int, rem_Int by (apply Ht || assumption).
    unfold epoch_second in *.
    destruct (Z.eqb_spec (now Date_now - lastUpdatedAt c) 1); [lia|].
    destruct (Z.leb_spec m (now Date_now - lastUpdatedAt c)); [lia|].
    destruct (Z.ltb_spec 1 (now Date_now - lastUpdatedAt c)); [lia|]. reflexivity. }
  split; [exact Hget|]. intros Hroom.
  rewrite (increment_wf_cases m) by assumption. rewrite Hget. cbn [snd data].
  destruct (Z.eqb_spec (bucket (data c) (now Date_now mod m)) UINT32_MAX); [lia|].
  cbn [fst snd data]. split; [reflexivity|]. apply bucket_update_eq. lia.
Qed.

Lemma getIndex_when_clock_went_back_witness :
  _getIndex 7000 four =
    (Int (now 7000 mod 4),
     {| maxDuration := Int 4; data := [1; 2; 3; 4]; lastUpdatedAt := now 7000 |}) /\
  fst (increment 7000 four) = true /\
  bucket (snd (increment 7000 four)).(data) (now 7000 mod 4)
    = bucket four.(data) (now 7000 mod 4) + 1.
Proof.
  assert (Hwf : wf 4 four) by solve_wf.
  assert (Ht : epoch_second (now 7000)) by (vm_compute; split; discriminate).
  assert (Hback : now 7000 < four.(lastUpdatedAt)) by reflexivity.
  destruct (getIndex_when_clock_went_back 4 7000 four Hwf Ht Hback) as [Hget Hinc].
  split; [exact Hget|]. apply Hinc. reflexivity.
Defined.

(** X10: [getCount(Infinity)] never returns on an instance whose
    [maxDuration] is [NaN], as [create(NaN)] returns one: the duration is
    not clamped, and the loop counter stays at [Infinity] whatever the fuel
    the loop is given. *)
Theorem getCount_of_infinity_hangs (Date_now : Z) (c : Counter.t) :
  c.(maxDuration) = NaN ->
  clamp c.(maxDuration) (Num PInf) = PInf /\
  (forall fuel index count,
     count_loop fuel (snd (_getIndex Date_now c)).(data) NaN index
                (sub PInf (Int 1)) count = None) /\
  getCount Date_now (Num PInf) c = None.
Proof.
  intros Hnan. split; [now rewrite Hnan|]. split.
  - intros fuel index count. apply count_loop_diverges.
  - unfold getCount.
    pose proof (getIndex_maxDuration Date_now c) as Hmax.
    destruct (_getIndex Date_now c) as [index c1]. cbn [snd] in Hmax.
    rewrite Hmax, Hnan. reflexivity.
Qed.

Lemma getCount_of_infinity_hangs_witness :
  create 4294967295 (Num NaN) 10000 = Normal nameless /\
  getCount 12000 (Num PInf) nameless = None.
Proof.
  split; [reflexivity|].
  apply (getCount_of_infinity_hangs 12000 nameless). reflexivity.
Defined.

(** X11: within the second of the last access [getCount] is a pure query:
    on an instance of the data model it returns, for every argument, and
    leaves the instance exactly as it was. *)
Theorem getCount_within_a_second_is_pure (m Date_now : Z) (duration : Value)
        (c : Counter.t) :
  wf m c ->
  now Date_now = c.(lastUpdatedAt) ->
  exists r, getCount Date_now duration c = Some (r, c).
Proof.
  intros Hwf Hsame. pose proof Hwf as [Hmax Hm _ _ _].
  destruct (getCount_returns m Date_now duration c Hmax Hm) as [r Hr].
  exists r. now rewrite Hr, (getIndex_same_instance m).
Qed.

Lemma getCount_within_a_second_is_pure_witness :
  exists r, getCount 10999 (Num (Int 2)) four = Some (r, four).
Proof.
  apply (getCount_within_a_second_is_pure 4 10999 (Num (Int 2)) four).
  - solve_wf.
  - reflexivity.
Defined.
